(** * Tracing and query core of edcraft-engine, as a shallow embedding

    The development follows the Python sources under [src/src]:
    - [models/tracer_models.py]: the trace records and [ExecutionContext];
    - [core/step_tracer/tracer_transformer.py] and [step_tracer.py]: the
      instrumenting transformer and its driver, over a fragment of the
      Python AST, with a small interpreter for the transformed program;
    - [core/query_engine/utils.py] and [pipeline_steps.py]: field-path
      resolution and the pipeline steps of the query engine. *)

From Stdlib Require Import ZArith String Ascii List Lia Permutation Sorted.
From stdpp Require Import base list strings pretty.
Import ListNotations.
Open Scope string_scope.
Open Scope list_scope.
Open Scope nat_scope.
Set Warnings "-register-all".

(* ------------------------------------------------------------------ *)
(** ** Python exceptions and the error monad *)

(** The exceptions the modelled code raises.  [QueryEngineError] and its
    two subclasses come from [query_engine_exception.py]. [RecursionError]
    stands for running out of the interpreter's fuel, [ModelUnsupported]
    for a construct outside the modelled fragment of Python. *)
Inductive py_exc :=
| NameError (name : string)
| AttributeError (attr : string)
| TypeError
| KeyError
| IndexError
| RuntimeError (msg : string)
| RecursionError
| ModelUnsupported
| QueryEngineError (msg : string)
| InvalidOperatorError (op : string)
| InvalidFieldError (field : string).

(** [isinstance(e, QueryEngineError)]. *)
Definition is_query_engine_error (e : py_exc) : bool :=
  match e with
  | QueryEngineError _ | InvalidOperatorError _ | InvalidFieldError _ => true
  | _ => false
  end.

Inductive res (A : Type) : Type :=
| Ok (a : A)
| Err (e : py_exc).
Arguments Ok {A} a.
Arguments Err {A} e.

Definition res_bind {A B} (m : res A) (k : A -> res B) : res B :=
  match m with
  | Ok a => k a
  | Err e => Err e
  end.

Notation "'let?' x ':=' m 'in' k" := (res_bind m (fun x => k))
  (at level 200, x pattern, m at level 100, k at level 200).

(* ------------------------------------------------------------------ *)
(** ** A fragment of the Python AST *)

Inductive const :=
| CInt (z : Z)
| CStr (s : string)
| CBool (b : bool)
| CNone.

(** [ast.expr]: constants, names, [+], attribute access and calls.  A
    keyword whose [arg] is [None] is a [**kwargs] argument. *)
Inductive expr :=
| Constant (c : const)
| Name (id : string)
| BinOpAdd (left right : expr)
| Attribute (value : expr) (attr : string)
| Call (func : expr) (args : list expr) (keywords : list (option string * expr))
       (lineno : Z).

(** [ast.stmt]: expression statements, assignments, function definitions
    (positional parameters) and returns. *)
Inductive stmt :=
| Expr (value : expr) (lineno : Z)
| Assign (targets : list expr) (value : expr) (lineno : Z)
| FunctionDef (name : string) (args : list string) (body : list stmt) (lineno : Z)
| Return (value : option expr) (lineno : Z).

(* ------------------------------------------------------------------ *)
(** ** Python values *)

(** Dictionaries are insertion-ordered association lists with string keys.
    [VObj cls attrs] is an instance of class [cls] with instance
    dictionary [attrs]; [VJoin] is a [JoinResult]; [VMethod v n] is the
    value of the built-in or class attribute [n] of [v] (a bound method);
    [VExecRef a] is a reference to the trace record at address [a] of the
    context's heap; [VCtx] and [VUtils] are the [ExecutionContext] and the
    [StepTracerUtils] objects of the run. *)
Inductive PyVal :=
| VNone
| VBool (b : bool)
| VInt (z : Z)
| VStr (s : string)
| VList (items : list PyVal)
| VDict (kvs : list (string * PyVal))
| VObj (cls : string) (attrs : list (string * PyVal))
| VJoin (alias_to_items : list (string * PyVal))
| VMethod (self : PyVal) (name : string)
| VFunc (name : string) (params : list string) (body : list stmt)
| VExecRef (addr : nat)
| VCtx
| VUtils.

(** Dictionary read [d.get(k)]. *)
Fixpoint dict_get {A} (k : string) (d : list (string * A)) : option A :=
  match d with
  | [] => None
  | (k', v) :: d' => if String.eqb k k' then Some v else dict_get k d'
  end.

(** Dictionary write [d[k] = v]: in place when [k] is present, appended
    otherwise. *)
Fixpoint dict_set {A} (k : string) (v : A) (d : list (string * A)) : list (string * A) :=
  match d with
  | [] => [(k, v)]
  | (k', v') :: d' => if String.eqb k k' then (k, v) :: d' else (k', v') :: dict_set k v d'
  end.

Definition dict_has {A} (k : string) (d : list (string * A)) : bool :=
  match dict_get k d with Some _ => true | None => false end.

(* ------------------------------------------------------------------ *)
(** ** Trace model ([tracer_models.py]) *)

(** The variant part of a [StatementExecution] subclass. *)
Inductive stmt_kind :=
| LoopExecution (loop_type : string) (num_iterations : nat)
| LoopIteration (iteration_num : nat) (loop_execution_id : nat)
| FunctionCall (func_name func_full_name : string) (func_def_line_num : option Z)
               (arguments : list (string * PyVal)) (return_value : PyVal)
               (func_call_exec_ctx_id : nat)
| BranchExecution (condition_str : string) (condition_result : PyVal).

(** [StatementExecution.__init__]; [stmt_type] is fixed by the subclass. *)
Record StatementExecution := mkExec {
  execution_id : nat;
  scope_id : nat;
  line_number : Z;
  kind : stmt_kind
}.

Definition stmt_type (e : StatementExecution) : string :=
  match kind e with
  | LoopExecution _ _ => "loop"
  | LoopIteration _ _ => "loop_iteration"
  | FunctionCall _ _ _ _ _ _ => "function"
  | BranchExecution _ _ => "branch"
  end.

(** [@dataclass VariableSnapshot] (fields prefixed [vs_] where Rocq's
    record projections would clash with [StatementExecution]'s). *)
Record VariableSnapshot := mkSnapshot {
  vs_name : string;
  vs_value : PyVal;
  vs_access_path : string;
  vs_line_number : Z;
  vs_scope_id : nat;
  vs_execution_id : nat
}.

(** [Scope]; the parent is kept by its id.  The parent's [children] list
    is not modelled: no operation of the context reads it. *)
Record Scope := mkScope {
  scope_type : string;
  sc_scope_id : nat;
  parent : option nat
}.

(** [ExecutionContext].  Records are Python objects shared between the
    trace and the execution stack, and [start_iteration] and the
    [FunctionCall] setters mutate them in place: they live in [heap],
    addressed by position, and [execution_trace] and [execution_stack]
    hold addresses.  The top of each stack (Python's [[-1]]) is the head
    of the list here. *)
Record ExecutionContext := mkCtx {
  heap : list StatementExecution;
  execution_trace : list nat;
  variables : list VariableSnapshot;
  execution_stack : list nat;
  scope_stack : list Scope;
  execution_counter : nat;
  scope_counter : nat
}.

Definition global_scope : Scope := mkScope "global" 0 None.

(** [ExecutionContext.__init__]. *)
Definition init_ctx : ExecutionContext :=
  mkCtx [] [] [] [] [global_scope] 0 0.

(** [current_execution]: the address of the top frame, if any. *)
Definition current_execution (s : ExecutionContext) : option nat :=
  head (execution_stack s).

(** [current_scope]: [self.scope_stack[-1]], [IndexError] when empty. *)
Definition current_scope (s : ExecutionContext) : res Scope :=
  match scope_stack s with
  | sc :: _ => Ok sc
  | [] => Err IndexError
  end.

Definition generate_execution_id (s : ExecutionContext) : nat * ExecutionContext :=
  let n := S (execution_counter s) in
  (n, mkCtx (heap s) (execution_trace s) (variables s) (execution_stack s)
            (scope_stack s) n (scope_counter s)).

Definition generate_scope_id (s : ExecutionContext) : nat * ExecutionContext :=
  let n := S (scope_counter s) in
  (n, mkCtx (heap s) (execution_trace s) (variables s) (execution_stack s)
            (scope_stack s) (execution_counter s) n).

Definition push_scope (s : ExecutionContext) (sc : Scope) : ExecutionContext :=
  mkCtx (heap s) (execution_trace s) (variables s) (execution_stack s)
        (sc :: scope_stack s) (execution_counter s) (scope_counter s).

Definition pop_scope (s : ExecutionContext) : res ExecutionContext :=
  match scope_stack s with
  | _ :: rest => Ok (mkCtx (heap s) (execution_trace s) (variables s)
                           (execution_stack s) rest (execution_counter s)
                           (scope_counter s))
  | [] => Err IndexError
  end.

(** Creating a record object: a fresh heap address. *)
Definition alloc (s : ExecutionContext) (e : StatementExecution) : nat * ExecutionContext :=
  (length (heap s),
   mkCtx (heap s ++ [e]) (execution_trace s) (variables s) (execution_stack s)
         (scope_stack s) (execution_counter s) (scope_counter s)).

(** Mutating the record object at address [a]. *)
Definition heap_update (s : ExecutionContext) (a : nat) (e : StatementExecution) : ExecutionContext :=
  mkCtx (<[a := e]> (heap s)) (execution_trace s) (variables s) (execution_stack s)
        (scope_stack s) (execution_counter s) (scope_counter s).

Definition push_execution (s : ExecutionContext) (a : nat) : ExecutionContext :=
  mkCtx (heap s) (execution_trace s ++ [a]) (variables s) (a :: execution_stack s)
        (scope_stack s) (execution_counter s) (scope_counter s).

(** [pop_execution]: pops the frame, and the scope for a [FunctionCall].
    Nothing else is done to the popped record. *)
Definition pop_execution (s : ExecutionContext) : res ExecutionContext :=
  match execution_stack s with
  | [] => Err IndexError
  | a :: rest =>
      let s1 := mkCtx (heap s) (execution_trace s) (variables s) rest
                      (scope_stack s) (execution_counter s) (scope_counter s) in
      match heap s !! a with
      | Some (mkExec _ _ _ (FunctionCall _ _ _ _ _ _)) => pop_scope s1
      | _ => Ok s1
      end
  end.

Definition record_loop_execution (s : ExecutionContext) (line : Z) (loop_type : string)
  : res ExecutionContext :=
  let (eid, s1) := generate_execution_id s in
  let? sc := current_scope s1 in
  let (a, s2) := alloc s1 (mkExec eid (sc_scope_id sc) line (LoopExecution loop_type 0)) in
  Ok (push_execution s2 a).

(** [LoopExecution.start_iteration]: the new iteration record and the
    loop record with its counter incremented. *)
Definition start_iteration (loop : StatementExecution) (eid sid : nat)
  : option (StatementExecution * StatementExecution) :=
  match kind loop with
  | LoopExecution ty n =>
      Some (mkExec eid sid (line_number loop) (LoopIteration n (execution_id loop)),
            mkExec (execution_id loop) (scope_id loop) (line_number loop)
                   (LoopExecution ty (S n)))
  | _ => None
  end.

Definition no_active_loop : py_exc :=
  RuntimeError "No active loop execution to record iteration for.".

Definition is_loop_execution (e : StatementExecution) : bool :=
  match kind e with LoopExecution _ _ => true | _ => false end.

Definition record_loop_iteration (s : ExecutionContext) : res ExecutionContext :=
  match current_execution s with
  | Some a =>
      match heap s !! a with
      | Some loop =>
          if is_loop_execution loop then
            let (eid, s1) := generate_execution_id s in
            let? sc := current_scope s1 in
            match start_iteration loop eid (sc_scope_id sc) with
            | Some (it, loop') =>
                let s2 := heap_update s1 a loop' in
                let (b, s3) := alloc s2 it in
                Ok (push_execution s3 b)
            | None => Err no_active_loop
            end
          else Err no_active_loop
      | None => Err no_active_loop
      end
  | None => Err no_active_loop
  end.

(** The [execution_id] of the current frame, or 0 outside any frame. *)
Definition current_execution_id (s : ExecutionContext) : nat :=
  match current_execution s with
  | Some a => match heap s !! a with Some e => execution_id e | None => 0 end
  | None => 0
  end.

Definition record_function_call (s : ExecutionContext) (line : Z)
  (func_name func_full_name : string) : res ExecutionContext :=
  let (eid, s1) := generate_execution_id s in
  let? sc := current_scope s1 in
  let ctx_id := current_execution_id s1 in
  let (a, s2) := alloc s1 (mkExec eid (sc_scope_id sc) line
                             (FunctionCall func_name func_full_name None [] VNone ctx_id)) in
  let s3 := push_execution s2 a in
  let (sid, s4) := generate_scope_id s3 in
  let? cur := current_scope s4 in
  Ok (push_scope s4 (mkScope "function" sid (Some (sc_scope_id cur)))).

Definition record_branch_execution (s : ExecutionContext) (line : Z)
  (condition_str : string) (condition_result : PyVal) : res ExecutionContext :=
  let (eid, s1) := generate_execution_id s in
  let? sc := current_scope s1 in
  let (a, s2) := alloc s1 (mkExec eid (sc_scope_id sc) line
                             (BranchExecution condition_str condition_result)) in
  Ok (push_execution s2 a).

Definition record_variable (s : ExecutionContext) (name : string) (value : PyVal)
  (access_path : string) (line : Z) : res ExecutionContext :=
  let eid := current_execution_id s in
  let? sc := current_scope s in
  Ok (mkCtx (heap s) (execution_trace s)
            (variables s ++ [mkSnapshot name value access_path line (sc_scope_id sc) eid])
            (execution_stack s) (scope_stack s) (execution_counter s) (scope_counter s)).

(** The methods of [FunctionCall] called on the record at address [a]
    ([reset_args], [add_arg], [set_func_def_line_num],
    [set_return_value]); any other record has no such attribute. *)
Definition exec_method (s : ExecutionContext) (a : nat) (meth : string) (args : list PyVal)
  : res ExecutionContext :=
  match heap s !! a with
  | Some (mkExec eid sid line (FunctionCall fn full defl arguments ret cid)) =>
      let upd k := Ok (heap_update s a (mkExec eid sid line k)) in
      match meth, args with
      | "reset_args", [] => upd (FunctionCall fn full defl [] ret cid)
      | "add_arg", [VStr name; v] => upd (FunctionCall fn full defl (dict_set name v arguments) ret cid)
      | "set_func_def_line_num", [VInt n] => upd (FunctionCall fn full (Some n) arguments ret cid)
      | "set_return_value", [v] => upd (FunctionCall fn full defl arguments v cid)
      | _, _ => Err TypeError
      end
  | Some _ => Err (AttributeError meth)
  | None => Err (AttributeError meth)
  end.

Definition function_call_methods : list string :=
  ["reset_args"; "add_arg"; "set_func_def_line_num"; "set_return_value"].

(** The tracer primitives the transformed program calls. *)
Inductive tracer_call :=
| TRecordLoopExecution (line : Z) (loop_type : string)
| TRecordLoopIteration
| TRecordFunctionCall (line : Z) (func_name func_full_name : string)
| TRecordBranchExecution (line : Z) (condition_str : string) (condition_result : PyVal)
| TRecordVariable (name : string) (value : PyVal) (access_path : string) (line : Z)
| TPopExecution
| TExecMethod (addr : nat) (meth : string) (args : list PyVal).

Definition ctx_step (s : ExecutionContext) (c : tracer_call) : res ExecutionContext :=
  match c with
  | TRecordLoopExecution line ty => record_loop_execution s line ty
  | TRecordLoopIteration => record_loop_iteration s
  | TRecordFunctionCall line fn full => record_function_call s line fn full
  | TRecordBranchExecution line cs cr => record_branch_execution s line cs cr
  | TRecordVariable n v p line => record_variable s n v p line
  | TPopExecution => pop_execution s
  | TExecMethod a m args => exec_method s a m args
  end.

(** The contexts a traced program can produce: every change to the
    context goes through one of its primitives. *)
Inductive reachable : ExecutionContext -> Prop :=
| reach_init : reachable init_ctx
| reach_step s c s' : reachable s -> ctx_step s c = Ok s' -> reachable s'.

(** The records of the trace, in trace order. *)
Definition trace_records (s : ExecutionContext) : list StatementExecution :=
  omap (fun a => heap s !! a) (execution_trace s).

(* ------------------------------------------------------------------ *)
(** ** The instrumenting transformer ([tracer_transformer.py]) *)

(** [self.exec_ctx_name]: the global name every injected call uses. *)
Definition exec_ctx_name : string := "_step_tracer_exec_ctx".

Definition step_tracer_utils_name : string := "_step_tracer_utils".

(** The injected nodes carry no location of their own: the transformed
    tree is unparsed to source text before it runs, so their [lineno]
    has no effect; they get 0. *)
Definition mk_call (f : expr) (args : list expr) : expr := Call f args [] 0.

Definition ctx_attr (m : string) : expr := Attribute (Name exec_ctx_name) m.

Definition current_execution_attr (m : string) : expr :=
  Attribute (Attribute (Name exec_ctx_name) "current_execution") m.

Definition safe_deepcopy_call (e : expr) : expr :=
  mk_call (Attribute (Name step_tracer_utils_name) "safe_deepcopy") [e].

Definition _create_pop_exec_call : stmt :=
  Expr (mk_call (ctx_attr "pop_execution") []) 0.

Definition _create_record_func_call (lineno : Z) (func_name func_full_name : string) : stmt :=
  Expr (mk_call (ctx_attr "record_function_call")
          [Constant (CInt lineno); Constant (CStr func_name); Constant (CStr func_full_name)]) 0.

Definition _create_add_arg_call (name : string) (arg_value : expr) : stmt :=
  Expr (mk_call (current_execution_attr "add_arg")
          [Constant (CStr name); safe_deepcopy_call arg_value]) 0.

Definition _create_record_func_return_call (return_value : expr) : stmt :=
  Expr (mk_call (current_execution_attr "set_return_value")
          [safe_deepcopy_call return_value]) 0.

Definition _create_set_func_def_line_num_call (line_num : Z) : stmt :=
  Expr (mk_call (current_execution_attr "set_func_def_line_num") [Constant (CInt line_num)]) 0.

Definition _create_reset_args_call : stmt :=
  Expr (mk_call (current_execution_attr "reset_args") []) 0.

(** [ast.parse(f"{ctx}.record_variable({var!r}, _step_tracer_utils.safe_deepcopy({var}), {path!r}, {line})")]. *)
Definition _create_variable_tracking_call (var_name access_path : string) (line_no : Z) : stmt :=
  Expr (mk_call (ctx_attr "record_variable")
          [Constant (CStr var_name); safe_deepcopy_call (Name var_name);
           Constant (CStr access_path); Constant (CInt line_no)]) 0.

Definition lambda_or_unknown : string := "<lambda_or_unknown>".

Definition _get_func_name (func : expr) : string :=
  match func with
  | Name id => id
  | Attribute _ attr => attr
  | _ => lambda_or_unknown
  end.

Fixpoint _get_func_full_name (func : expr) : string :=
  match func with
  | Name id => id
  | Attribute v attr => String.append (_get_func_full_name v) (String.append "." attr)
  | _ => lambda_or_unknown
  end.

Fixpoint _get_base_name (node : expr) : option (string * string) :=
  match node with
  | Name id => Some (id, id)
  | Attribute v attr =>
      match _get_base_name v with
      | Some (base_name, access_path) =>
          Some (base_name, String.append access_path (String.append "." attr))
      | None => None
      end
  | _ => None
  end.

Definition _extract_variable_names (target : expr) : list (string * string) :=
  match target with
  | Name id => [(id, id)]
  | Attribute _ _ =>
      match _get_base_name target with Some b => [b] | None => [] end
  | _ => []
  end.

Definition tmp_ret_var : string := "_step_tracer_tmp_ret".

(** [expand_call]: record the call, its arguments, evaluate it into the
    temporary, record the return value, pop, and end with the
    expression statement [_step_tracer_tmp_ret]. *)
Definition expand_call (func : expr) (args : list expr)
  (keywords : list (option string * expr)) (lineno : Z) : list stmt :=
  let node := Call func args keywords lineno in
  let record_func_node :=
    _create_record_func_call lineno (_get_func_name func) (_get_func_full_name func) in
  let pos := imap (fun idx a =>
               _create_add_arg_call (String.append "_arg" (pretty (N.of_nat idx))) a) args in
  let kws := omap (fun kw => match kw with
                             | (Some k, v) => Some (_create_add_arg_call k v)
                             | (None, _) => None
                             end) keywords in
  [record_func_node] ++ pos ++ kws ++
  [Assign [Name tmp_ret_var] node 0;
   _create_record_func_return_call (Name tmp_ret_var);
   _create_pop_exec_call;
   Expr (Name tmp_ret_var) 0].

Definition _add_variable_tracking_calls (variables : list (string * string)) (lineno : Z)
  : list stmt :=
  map (fun '(v, p) => _create_variable_tracking_call v p lineno) variables.

(** The visitor, statement by statement ([visit_Expr], [visit_Assign],
    [visit_FunctionDef]; [Return] has no visitor and is kept).  The
    expressions of the fragment contain no statements, so
    [generic_visit] leaves them unchanged. *)
Fixpoint visit (s : stmt) : list stmt :=
  match s with
  | Expr (Call func args kws ln) lineno =>
      let expanded := expand_call func args kws ln in
      match func with
      | Attribute _ _ =>
          match _get_base_name func with
          | Some (obj_name, _) =>
              expanded ++ [_create_variable_tracking_call obj_name obj_name lineno]
          | None => expanded
          end
      | _ => expanded
      end
  | Expr e lineno => [Expr e lineno]
  | Assign targets value lineno =>
      let statements :=
        match value with
        | Call func args kws ln =>
            removelast (expand_call func args kws ln) ++
            [Assign targets (Name tmp_ret_var) lineno]
        | _ => [Assign targets value lineno]
        end in
      statements ++
      flat_map (fun t => _add_variable_tracking_calls (_extract_variable_names t) lineno) targets
  | FunctionDef name params body lineno =>
      let body' := flat_map visit body in
      let arg_calls :=
        flat_map (fun a => [_create_add_arg_call a (Name a);
                            _create_variable_tracking_call a a lineno]) params in
      [FunctionDef name params
         ([_create_reset_args_call; _create_set_func_def_line_num_call lineno]
            ++ arg_calls ++ body') lineno]
  | Return v lineno => [Return v lineno]
  end.

(** [StepTracer.transform_code], on the parsed module. *)
Definition transform_code (module : list stmt) : list stmt := flat_map visit module.

(* ------------------------------------------------------------------ *)
(** ** Rows of the queried relation and attribute access *)

Definition zn (n : nat) : PyVal := VInt (Z.of_nat n).

(** A trace record as the object the query engine sees: its class and
    the instance attributes its [__init__] sets, in order. *)
Definition exec_obj (e : StatementExecution) : PyVal :=
  let base := [("execution_id", zn (execution_id e)); ("scope_id", zn (scope_id e));
               ("line_number", VInt (line_number e)); ("stmt_type", VStr (stmt_type e))] in
  match kind e with
  | LoopExecution ty n =>
      VObj "LoopExecution" (base ++ [("loop_type", VStr ty); ("num_iterations", zn n)])
  | LoopIteration i lid =>
      VObj "LoopIteration" (base ++ [("iteration_num", zn i); ("loop_execution_id", zn lid)])
  | FunctionCall fn full defl args ret cid =>
      VObj "FunctionCall"
        (base ++ [("func_name", VStr fn); ("func_full_name", VStr full);
                  ("func_def_line_num", match defl with Some l => VInt l | None => VNone end);
                  ("arguments", VDict args); ("return_value", ret);
                  ("func_call_exec_ctx_id", zn cid)])
  | BranchExecution cs cr =>
      VObj "BranchExecution" (base ++ [("condition_str", VStr cs); ("condition_result", cr)])
  end.

Definition snapshot_obj (v : VariableSnapshot) : PyVal :=
  VObj "VariableSnapshot"
    [("name", VStr (vs_name v)); ("value", vs_value v); ("access_path", VStr (vs_access_path v));
     ("line_number", VInt (vs_line_number v)); ("scope_id", zn (vs_scope_id v));
     ("execution_id", zn (vs_execution_id v)); ("stmt_type", VStr "variable")].

(** The seed relation of a query: [execution_trace + variables]. *)
Definition query_items (s : ExecutionContext) : list PyVal :=
  map exec_obj (trace_records s) ++ map snapshot_obj (variables s).

(** Attributes every object has (from [object]). *)
Definition object_dunders : list string :=
  ["__class__"; "__delattr__"; "__dir__"; "__doc__"; "__eq__"; "__format__"; "__ge__";
   "__getattribute__"; "__getstate__"; "__gt__"; "__hash__"; "__init__";
   "__init_subclass__"; "__le__"; "__lt__"; "__ne__"; "__new__"; "__reduce__";
   "__reduce_ex__"; "__repr__"; "__setattr__"; "__sizeof__"; "__str__";
   "__subclasshook__"].

Definition dict_attr_names : list string :=
  ["clear"; "copy"; "fromkeys"; "get"; "items"; "keys"; "pop"; "popitem";
   "setdefault"; "update"; "values"; "__contains__"; "__delitem__"; "__getitem__";
   "__ior__"; "__iter__"; "__len__"; "__or__"; "__reversed__"; "__ror__";
   "__setitem__"; "__class_getitem__"] ++ object_dunders.

Definition list_attr_names : list string :=
  ["append"; "clear"; "copy"; "count"; "extend"; "index"; "insert"; "pop"; "remove";
   "reverse"; "sort"; "__add__"; "__contains__"; "__delitem__"; "__getitem__";
   "__iadd__"; "__imul__"; "__iter__"; "__len__"; "__mul__"; "__reversed__";
   "__rmul__"; "__setitem__"; "__class_getitem__"] ++ object_dunders.

Definition str_attr_names : list string :=
  ["capitalize"; "casefold"; "center"; "count"; "encode"; "endswith"; "expandtabs";
   "find"; "format"; "format_map"; "index"; "isalnum"; "isalpha"; "isascii";
   "isdecimal"; "isdigit"; "isidentifier"; "islower"; "isnumeric"; "isprintable";
   "isspace"; "istitle"; "isupper"; "join"; "ljust"; "lower"; "lstrip"; "maketrans";
   "partition"; "removeprefix"; "removesuffix"; "replace"; "rfind"; "rindex"; "rjust";
   "rpartition"; "rsplit"; "rstrip"; "split"; "splitlines"; "startswith"; "strip";
   "swapcase"; "title"; "translate"; "upper"; "zfill"; "__add__"; "__contains__";
   "__getitem__"; "__iter__"; "__len__"; "__mod__"; "__mul__"; "__rmul__"] ++ object_dunders.

Definition int_method_names : list string :=
  ["as_integer_ratio"; "bit_count"; "bit_length"; "conjugate"; "from_bytes";
   "is_integer"; "to_bytes"; "__abs__"; "__add__"; "__and__"; "__bool__"; "__float__";
   "__floordiv__"; "__index__"; "__int__"; "__mod__"; "__mul__"; "__neg__";
   "__pow__"; "__sub__"; "__truediv__"] ++ object_dunders.

(** Methods defined by the classes of [tracer_models.py] and
    [pipeline_steps.py]. *)
Definition class_attrs (cls : string) : list string :=
  (if String.eqb cls "LoopExecution" then ["start_iteration"]
   else if String.eqb cls "FunctionCall" then function_call_methods
   else if String.eqb cls "JoinResult" then ["get"; "add_alias"]
   else []) ++ object_dunders.

Definition mem_str (x : string) (l : list string) : bool := existsb (String.eqb x) l.

Definition int_attr (v : PyVal) (z : Z) (attr : string) : option PyVal :=
  if String.eqb attr "real" then Some (VInt z)
  else if String.eqb attr "numerator" then Some (VInt z)
  else if String.eqb attr "imag" then Some (VInt 0)
  else if String.eqb attr "denominator" then Some (VInt 1)
  else if mem_str attr int_method_names then Some (VMethod v attr)
  else None.

(** [getattr(v, attr)] when [hasattr(v, attr)], [None] otherwise:
    instance attributes first, then the class's. *)
Definition py_getattr_opt (v : PyVal) (attr : string) : option PyVal :=
  match v with
  | VObj cls attrs =>
      match dict_get attr attrs with
      | Some x => Some x
      | None => if mem_str attr (class_attrs cls) then Some (VMethod v attr) else None
      end
  | VJoin m =>
      if String.eqb attr "alias_to_items" then Some (VDict m)
      else if mem_str attr (class_attrs "JoinResult") then Some (VMethod v attr) else None
  | VDict _ => if mem_str attr dict_attr_names then Some (VMethod v attr) else None
  | VList _ => if mem_str attr list_attr_names then Some (VMethod v attr) else None
  | VStr _ => if mem_str attr str_attr_names then Some (VMethod v attr) else None
  | VInt z => int_attr v z attr
  | VBool b => int_attr v (if b then 1 else 0)%Z attr
  | _ => if mem_str attr object_dunders then Some (VMethod v attr) else None
  end.

(** [field_path.split(".")]. *)
Fixpoint split_dot (s : string) : list string :=
  match s with
  | EmptyString => [""]
  | String c rest =>
      let parts := split_dot rest in
      if Ascii.eqb c "." then "" :: parts
      else match parts with
           | p :: ps => String c p :: ps
           | [] => [String c ""]
           end
  end.

(** The loop of [get_field_value] over the path segments. *)
Fixpoint resolve_fields (curr_obj : PyVal) (fields : list string) : res PyVal :=
  match fields with
  | [] => Ok curr_obj
  | field :: fs =>
      match curr_obj with
      | VJoin m =>
          match dict_get field m with
          | None | Some VNone => Ok VNone
          | Some v => resolve_fields v fs
          end
      | _ =>
          match py_getattr_opt curr_obj field with
          | Some v => resolve_fields v fs
          | None =>
              match curr_obj with
              | VDict kvs =>
                  match dict_get field kvs with
                  | Some v => resolve_fields v fs
                  | None => Err (InvalidFieldError field)
                  end
              | _ => Err (InvalidFieldError field)
              end
          end
      end
  end.

(** [utils.get_field_value]. *)
Definition get_field_value (obj : PyVal) (field_path : string) : res PyVal :=
  resolve_fields obj (split_dot field_path).

(* ------------------------------------------------------------------ *)
(** ** Python comparison operators on the modelled values *)

Definition py_num (v : PyVal) : option Z :=
  match v with
  | VInt z => Some z
  | VBool b => Some (if b then 1 else 0)%Z
  | _ => None
  end.

Definition is_dataclass_name (c : string) : bool :=
  String.eqb c "VariableSnapshot".

(** [==].  Lists compare element-wise, dictionaries and [JoinResult]s by
    their items, dataclass instances by their fields.  Other objects
    compare by identity, which is not tracked for [VObj], [VMethod] and
    [VFunc]: two such values are taken as distinct. *)
Fixpoint py_eq (a b : PyVal) : bool :=
  match a, b with
  | VNone, VNone => true
  | VStr x, VStr y => String.eqb x y
  | VList xs, VList ys =>
      (fix go (xs ys : list PyVal) : bool :=
         match xs, ys with
         | [], [] => true
         | x :: xs', y :: ys' => py_eq x y && go xs' ys'
         | _, _ => false
         end) xs ys
  | VDict d1, VDict d2 | VJoin d1, VJoin d2 =>
      Nat.eqb (length d1) (length d2) &&
      (fix go (d : list (string * PyVal)) : bool :=
         match d with
         | [] => true
         | (k, v) :: d' =>
             match dict_get k d2 with Some w => py_eq v w | None => false end && go d'
         end) d1
  | VObj c1 a1, VObj c2 a2 =>
      is_dataclass_name c1 && String.eqb c1 c2 &&
      (fix go (a1 a2 : list (string * PyVal)) : bool :=
         match a1, a2 with
         | [], [] => true
         | (_, x) :: r1, (_, y) :: r2 => py_eq x y && go r1 r2
         | _, _ => false
         end) a1 a2
  | VCtx, VCtx | VUtils, VUtils => true
  | VExecRef x, VExecRef y => Nat.eqb x y
  | _, _ =>
      match py_num a, py_num b with
      | Some x, Some y => Z.eqb x y
      | _, _ => false
      end
  end.

(** [<] ([strict]) and [<=]: numbers, strings (by code point) and lists
    (lexicographically); any other pair raises [TypeError]. *)
Fixpoint py_cmp (strict : bool) (a b : PyVal) : res bool :=
  match a, b with
  | VStr x, VStr y => Ok (if strict then String.ltb x y else String.leb x y)
  | VList xs, VList ys =>
      (fix go (xs ys : list PyVal) : res bool :=
         match xs, ys with
         | [], [] => Ok (negb strict)
         | [], _ :: _ => Ok true
         | _ :: _, [] => Ok false
         | x :: xs', y :: ys' => if py_eq x y then go xs' ys' else py_cmp strict x y
         end) xs ys
  | _, _ =>
      match py_num a, py_num b with
      | Some x, Some y => Ok (if strict then Z.ltb x y else Z.leb x y)
      | _, _ => Err TypeError
      end
  end.

Definition is_hashable (v : PyVal) : bool :=
  match v with
  | VList _ | VDict _ | VJoin _ => false
  | VObj c _ => negb (is_dataclass_name c)
  | _ => true
  end.

(** [x in container]. *)
Definition py_contains (container x : PyVal) : res bool :=
  match container with
  | VList ys => Ok (existsb (py_eq x) ys)
  | VDict kvs =>
      if is_hashable x then
        match x with VStr k => Ok (dict_has k kvs) | _ => Ok false end
      else Err TypeError
  | VStr s =>
      match x with
      | VStr t => Ok (match String.index 0 t s with Some _ => true | None => false end)
      | _ => Err TypeError
      end
  | _ => Err TypeError
  end.

(* ------------------------------------------------------------------ *)
(** ** Pipeline steps ([pipeline_steps.py]) *)

(** [QueryCondition.op_map]. *)
Definition op_map (op : string) : option (PyVal -> PyVal -> res bool) :=
  if String.eqb op "==" then Some (fun x y => Ok (py_eq x y))
  else if String.eqb op "!=" then Some (fun x y => Ok (negb (py_eq x y)))
  else if String.eqb op "<" then Some (py_cmp true)
  else if String.eqb op "<=" then Some (py_cmp false)
  else if String.eqb op ">" then Some (fun x y => py_cmp true y x)
  else if String.eqb op ">=" then Some (fun x y => py_cmp false y x)
  else if String.eqb op "in" then Some (fun x y => py_contains y x)
  else if String.eqb op "not_in" then Some (fun x y => let? b := py_contains y x in Ok (negb b))
  else None.

Record QueryCondition := mkCond {
  qc_field : string;
  qc_op : string;
  qc_value : PyVal
}.

(** [QueryCondition.evaluate]: the body of the [try], then the handler
    [except (TypeError, KeyError): return False]. *)
Definition evaluate (c : QueryCondition) (obj : PyVal) : res bool :=
  let body :=
    let? field_value := get_field_value obj (qc_field c) in
    match op_map (qc_op c) with
    | None => Err (InvalidOperatorError (qc_op c))
    | Some op_func => op_func field_value (qc_value c)
    end in
  match body with
  | Err TypeError | Err KeyError => Ok false
  | r => r
  end.

(** [any(cond.evaluate(item) for cond in conditions)]. *)
Fixpoint any_condition (conds : list QueryCondition) (item : PyVal) : res bool :=
  match conds with
  | [] => Ok false
  | c :: cs => let? b := evaluate c item in if b then Ok true else any_condition cs item
  end.

Fixpoint where_apply (conds : list QueryCondition) (items : list PyVal) : res (list PyVal) :=
  match items with
  | [] => Ok []
  | item :: rest =>
      let? keep := any_condition conds item in
      let? r := where_apply conds rest in
      Ok (if keep then item :: r else r)
  end.

(** [MapStep.apply], for a function without side effects. *)
Definition map_apply (func : PyVal -> PyVal) (items : list PyVal) : list PyVal :=
  map func items.

(** [ReduceStep.apply]: extend by list rows, append the others. *)
Fixpoint reduce_apply (items : list PyVal) : list PyVal :=
  match items with
  | [] => []
  | VList l :: rest => l ++ reduce_apply rest
  | item :: rest => item :: reduce_apply rest
  end.

(** [JoinStep]: the other side, the join predicate (a callable without
    side effects) and the two aliases. *)
Record JoinStep := mkJoinStepRaw {
  other_items : list PyVal;
  conditions : PyVal -> PyVal -> bool;
  left_alias : string;
  right_alias : string
}.

(** Construction, with [JoinStep.__post_init__]. *)
Definition mk_join_step (other : list PyVal) (conds : PyVal -> PyVal -> bool)
  (l r : string) : res JoinStep :=
  if String.eqb l r then Err (QueryEngineError "Left and right aliases must be different.")
  else Ok (mkJoinStepRaw other conds l r).

Definition alias_used_error (alias : string) : py_exc :=
  QueryEngineError (String.append "Alias '" (String.append alias "' is already used.")).

(** [JoinStep._create_joined_result]. *)
Definition _create_joined_result (js : JoinStep) (left_item right_item : PyVal) : res PyVal :=
  let alias_to_items :=
    match left_item with
    | VJoin m => m
    | _ => [(left_alias js, left_item)]
    end in
  if dict_has (right_alias js) alias_to_items then Err (alias_used_error (right_alias js))
  else Ok (VJoin (alias_to_items ++ [(right_alias js, right_item)])).

(** The rows built for one left item from its matching right items. *)
Fixpoint join_matches (js : JoinStep) (left_item : PyVal) (rights : list PyVal)
  : res (list PyVal) :=
  match rights with
  | [] => Ok []
  | r :: rs =>
      if conditions js left_item r then
        let? x := _create_joined_result js left_item r in
        let? xs := join_matches js left_item rs in
        Ok (x :: xs)
      else join_matches js left_item rs
  end.

(** [InnerJoinStep.apply]. *)
Fixpoint inner_join_apply (js : JoinStep) (items : list PyVal) : res (list PyVal) :=
  match items with
  | [] => Ok []
  | l :: ls =>
      let? ms := join_matches js l (other_items js) in
      let? rest := inner_join_apply js ls in
      Ok (ms ++ rest)
  end.

(** [LeftJoinStep.apply]. *)
Fixpoint left_join_apply (js : JoinStep) (items : list PyVal) : res (list PyVal) :=
  match items with
  | [] => Ok []
  | l :: ls =>
      let? ms := join_matches js l (other_items js) in
      let? row :=
        if existsb (conditions js l) (other_items js) then Ok ms
        else let? x := _create_joined_result js l VNone in Ok [x] in
      let? rest := left_join_apply js ls in
      Ok (row ++ rest)
  end.

(** The rows built for one right item from its matching left items. *)
Fixpoint join_matches_right (js : JoinStep) (lefts : list PyVal) (right_item : PyVal)
  : res (list PyVal) :=
  match lefts with
  | [] => Ok []
  | l :: ls =>
      if conditions js l right_item then
        let? x := _create_joined_result js l right_item in
        let? xs := join_matches_right js ls right_item in
        Ok (x :: xs)
      else join_matches_right js ls right_item
  end.

(** [RightJoinStep.apply]. *)
Definition right_join_apply (js : JoinStep) (items : list PyVal) : res (list PyVal) :=
  (fix go (rights : list PyVal) : res (list PyVal) :=
     match rights with
     | [] => Ok []
     | r :: rs =>
         let? ms := join_matches_right js items r in
         let? row :=
           if existsb (fun l => conditions js l r) items then Ok ms
           else let? x := _create_joined_result js VNone r in Ok [x] in
         let? rest := go rs in
         Ok (row ++ rest)
     end) (other_items js).

(** The inner loop of [FullOuterJoinStep.apply] over
    [enumerate(self.other_items)]: the rows built and the indices
    added to [matched_right_indices]. *)
Fixpoint matches_indexed (js : JoinStep) (left_item : PyVal) (rights : list (nat * PyVal))
  : res (list PyVal * list nat) :=
  match rights with
  | [] => Ok ([], [])
  | (i, r) :: rs =>
      if conditions js left_item r then
        let? x := _create_joined_result js left_item r in
        let? (xs, idxs) := matches_indexed js left_item rs in
        Ok (x :: xs, i :: idxs)
      else matches_indexed js left_item rs
  end.

Fixpoint full_outer_left (js : JoinStep) (items : list PyVal) (rights : list (nat * PyVal))
  : res (list PyVal * list nat) :=
  match items with
  | [] => Ok ([], [])
  | l :: ls =>
      let? (ms, idxs) := matches_indexed js l rights in
      let? row :=
        match idxs with
        | [] => let? x := _create_joined_result js l VNone in Ok [x]
        | _ :: _ => Ok ms
        end in
      let? (rest, idxs') := full_outer_left js ls rights in
      Ok (row ++ rest, idxs ++ idxs')
  end.

Fixpoint unmatched_rights (js : JoinStep) (rights : list (nat * PyVal)) (matched : list nat)
  : res (list PyVal) :=
  match rights with
  | [] => Ok []
  | (i, r) :: rs =>
      if existsb (Nat.eqb i) matched then unmatched_rights js rs matched
      else
        let? x := _create_joined_result js VNone r in
        let? xs := unmatched_rights js rs matched in
        Ok (x :: xs)
  end.

Definition enumerate {A} (l : list A) : list (nat * A) := zip (seq 0 (length l)) l.

(** [FullOuterJoinStep.apply]. *)
Definition full_outer_join_apply (js : JoinStep) (items : list PyVal) : res (list PyVal) :=
  let rights := enumerate (other_items js) in
  let? (rows, matched_right_indices) := full_outer_left js items rights in
  let? tail := unmatched_rights js rights matched_right_indices in
  Ok (rows ++ tail).

(* ------------------------------------------------------------------ *)
(** ** Running the transformed program *)

(** The interpreter state: module globals, the locals of the running
    function (none at module level) and the execution context of the run. *)
Record IState := mkIState {
  globals : list (string * PyVal);
  locals : option (list (string * PyVal));
  ictx : ExecutionContext
}.

Definition lookup_name (st : IState) (x : string) : res PyVal :=
  let from_globals := match dict_get x (globals st) with
                      | Some v => Ok v
                      | None => Err (NameError x)
                      end in
  match locals st with
  | Some l => match dict_get x l with Some v => Ok v | None => from_globals end
  | None => from_globals
  end.

Definition store_name (st : IState) (x : string) (v : PyVal) : IState :=
  match locals st with
  | Some l => mkIState (globals st) (Some (dict_set x v l)) (ictx st)
  | None => mkIState (dict_set x v (globals st)) None (ictx st)
  end.

Definition set_ctx (st : IState) (s : ExecutionContext) : IState :=
  mkIState (globals st) (locals st) s.

Definition const_val (c : const) : PyVal :=
  match c with
  | CInt z => VInt z
  | CStr s => VStr s
  | CBool b => VBool b
  | CNone => VNone
  end.

Definition py_add (a b : PyVal) : res PyVal :=
  match a, b with
  | VStr x, VStr y => Ok (VStr (String.append x y))
  | VList x, VList y => Ok (VList (x ++ y))
  | _, _ =>
      match py_num a, py_num b with
      | Some x, Some y => Ok (VInt (x + y))
      | _, _ => Err TypeError
      end
  end.

Definition ctx_method_names : list string :=
  ["record_loop_execution"; "record_loop_iteration"; "record_function_call";
   "record_branch_execution"; "record_variable"; "pop_execution"; "push_execution";
   "push_scope"; "pop_scope"; "generate_execution_id"; "generate_scope_id"].

(** Attribute access at run time. *)
Definition getattr_rt (st : IState) (v : PyVal) (attr : string) : res PyVal :=
  match v with
  | VCtx =>
      if String.eqb attr "current_execution" then
        Ok (match current_execution (ictx st) with Some a => VExecRef a | None => VNone end)
      else if mem_str attr ctx_method_names then Ok (VMethod VCtx attr)
      else Err (AttributeError attr)
  | VUtils =>
      if String.eqb attr "safe_deepcopy" then Ok (VMethod VUtils attr)
      else Err (AttributeError attr)
  | VExecRef a =>
      match heap (ictx st) !! a with
      | Some e =>
          match kind e with
          | FunctionCall _ _ _ _ _ _ =>
              if mem_str attr function_call_methods then Ok (VMethod v attr)
              else match py_getattr_opt (exec_obj e) attr with
                   | Some x => Ok x
                   | None => Err (AttributeError attr)
                   end
          | _ => match py_getattr_opt (exec_obj e) attr with
                 | Some x => Ok x
                 | None => Err (AttributeError attr)
                 end
          end
      | None => Err (AttributeError attr)
      end
  | _ =>
      match py_getattr_opt v attr with
      | Some x => Ok x
      | None => Err (AttributeError attr)
      end
  end.

(** A call of a method of the execution context, with its arguments. *)
Definition ctx_call_of (meth : string) (args : list PyVal) : res tracer_call :=
  match meth, args with
  | "record_loop_execution", [VInt line; VStr ty] => Ok (TRecordLoopExecution line ty)
  | "record_loop_iteration", [] => Ok TRecordLoopIteration
  | "record_function_call", [VInt line; VStr fn; VStr full] =>
      Ok (TRecordFunctionCall line fn full)
  | "record_branch_execution", [VInt line; VStr cs; cr] =>
      Ok (TRecordBranchExecution line cs cr)
  | "record_variable", [VStr n; v; VStr p; VInt line] => Ok (TRecordVariable n v p line)
  | "pop_execution", [] => Ok TPopExecution
  | _, _ => Err ModelUnsupported
  end.

(** Binding the arguments of a call to the parameters of a function. *)
Fixpoint bind_positional (params : list string) (args : list PyVal)
  : res (list (string * PyVal) * list string) :=
  match params, args with
  | _, [] => Ok ([], params)
  | p :: ps, a :: as_ =>
      let? (b, rest) := bind_positional ps as_ in Ok ((p, a) :: b, rest)
  | [], _ :: _ => Err TypeError
  end.

Fixpoint bind_keywords (unbound : list string) (bound : list (string * PyVal))
  (kws : list (string * PyVal)) : res (list (string * PyVal) * list string) :=
  match kws with
  | [] => Ok (bound, unbound)
  | (k, v) :: kws' =>
      if mem_str k unbound then
        bind_keywords (filter (fun p => negb (String.eqb p k)) unbound) (bound ++ [(k, v)]) kws'
      else Err TypeError
  end.

Definition bind_params (params : list string) (args : list PyVal) (kws : list (string * PyVal))
  : res (list (string * PyVal)) :=
  let? (b, unbound) := bind_positional params args in
  let? (b', unbound') := bind_keywords unbound b kws in
  match unbound' with
  | [] => Ok b'
  | _ :: _ => Err TypeError
  end.

(** Assignment to the targets of an [ast.Assign]: names only in the
    fragment. *)
Fixpoint assign_targets (st : IState) (targets : list expr) (v : PyVal) : res IState :=
  match targets with
  | [] => Ok st
  | Name x :: ts => assign_targets (store_name st x v) ts v
  | _ :: _ => Err ModelUnsupported
  end.

Inductive outcome :=
| Normal
| Returned (v : PyVal).

(** The interpreter, with fuel bounding the depth of evaluation. *)
Fixpoint eval_expr (fuel : nat) (st : IState) (e : expr) {struct fuel} : res (PyVal * IState) :=
  match fuel with
  | O => Err RecursionError
  | S f =>
      match e with
      | Constant c => Ok (const_val c, st)
      | Name x => let? v := lookup_name st x in Ok (v, st)
      | BinOpAdd l r =>
          let? (v1, st1) := eval_expr f st l in
          let? (v2, st2) := eval_expr f st1 r in
          let? v := py_add v1 v2 in Ok (v, st2)
      | Attribute e1 attr =>
          let? (v, st1) := eval_expr f st e1 in
          let? a := getattr_rt st1 v attr in Ok (a, st1)
      | Call func args kws _ =>
          let? (fv, st1) := eval_expr f st func in
          let? (avs, st2) := eval_args f st1 args in
          let? (kvs, st3) := eval_keywords f st2 kws in
          call_value f st3 fv avs kvs
      end
  end
with eval_args (fuel : nat) (st : IState) (es : list expr) {struct fuel}
  : res (list PyVal * IState) :=
  match fuel with
  | O => Err RecursionError
  | S f =>
      match es with
      | [] => Ok ([], st)
      | e :: es' =>
          let? (v, st1) := eval_expr f st e in
          let? (vs, st2) := eval_args f st1 es' in
          Ok (v :: vs, st2)
      end
  end
with eval_keywords (fuel : nat) (st : IState) (kws : list (option string * expr)) {struct fuel}
  : res (list (string * PyVal) * IState) :=
  match fuel with
  | O => Err RecursionError
  | S f =>
      match kws with
      | [] => Ok ([], st)
      | (Some k, e) :: kws' =>
          let? (v, st1) := eval_expr f st e in
          let? (vs, st2) := eval_keywords f st1 kws' in
          Ok ((k, v) :: vs, st2)
      | (None, _) :: _ => Err ModelUnsupported
      end
  end
with call_value (fuel : nat) (st : IState) (fv : PyVal) (args : list PyVal)
  (kws : list (string * PyVal)) {struct fuel} : res (PyVal * IState) :=
  match fuel with
  | O => Err RecursionError
  | S f =>
      match fv with
      | VFunc _ params body =>
          let? bindings := bind_params params args kws in
          let? (out, st1) := exec_block f (mkIState (globals st) (Some bindings) (ictx st)) body in
          let ret := match out with Returned v => v | Normal => VNone end in
          Ok (ret, mkIState (globals st1) (locals st) (ictx st1))
      | VMethod VCtx meth =>
          match kws with
          | [] =>
              let? c := ctx_call_of meth args in
              let? s' := ctx_step (ictx st) c in
              Ok (VNone, set_ctx st s')
          | _ :: _ => Err ModelUnsupported
          end
      | VMethod VUtils "safe_deepcopy" =>
          (* deep copy of a value of the fragment, which holds no shared
             mutable state: the value itself *)
          match args, kws with
          | [x], [] => Ok (x, st)
          | _, _ => Err TypeError
          end
      | VMethod (VExecRef a) meth =>
          match kws with
          | [] =>
              let? s' := ctx_step (ictx st) (TExecMethod a meth args) in
              Ok (VNone, set_ctx st s')
          | _ :: _ => Err ModelUnsupported
          end
      | _ => Err TypeError
      end
  end
with exec_stmt (fuel : nat) (st : IState) (s : stmt) {struct fuel} : res (outcome * IState) :=
  match fuel with
  | O => Err RecursionError
  | S f =>
      match s with
      | Expr e _ => let? (_, st1) := eval_expr f st e in Ok (Normal, st1)
      | Assign targets value _ =>
          let? (v, st1) := eval_expr f st value in
          let? st2 := assign_targets st1 targets v in
          Ok (Normal, st2)
      | FunctionDef name params body _ => Ok (Normal, store_name st name (VFunc name params body))
      | Return None _ => Ok (Returned VNone, st)
      | Return (Some e) _ => let? (v, st1) := eval_expr f st e in Ok (Returned v, st1)
      end
  end
with exec_block (fuel : nat) (st : IState) (body : list stmt) {struct fuel}
  : res (outcome * IState) :=
  match fuel with
  | O => Err RecursionError
  | S f =>
      match body with
      | [] => Ok (Normal, st)
      | s :: rest =>
          let? (out, st1) := exec_stmt f st s in
          match out with
          | Returned v => Ok (Returned v, st1)
          | Normal => exec_block f st1 rest
          end
      end
  end.

(** A bound on the interpreter's depth, far above what the programs
    below need. *)
Definition default_fuel : nat := 2000.

(** [exec(transformed_code, globals_dict)] with a fresh
    [ExecutionContext] as [VCtx]: the context after the run. *)
Definition exec_module (globals_dict : list (string * PyVal)) (code : list stmt)
  : res ExecutionContext :=
  let? (_, st) := exec_block default_fuel (mkIState globals_dict None init_ctx) code in
  Ok (ictx st).

(** The name under which the driver binds the context. *)
Definition driver_ctx_name : string := "_step_tracer_execution_context".

(** [StepTracer.execute_transformed_code]. *)
Definition execute_transformed_code (transformed_code : list stmt)
  (globals_dict : option (list (string * PyVal))) : res ExecutionContext :=
  let g := match globals_dict with Some d => d | None => [] end in
  let g' := dict_set step_tracer_utils_name VUtils (dict_set driver_ctx_name VCtx g) in
  exec_module g' transformed_code.

(** The environment the injected calls expect: the context under
    [exec_ctx_name], the utilities under [_step_tracer_utils]. *)
Definition transformer_env : list (string * PyVal) :=
  [(exec_ctx_name, VCtx); (step_tracer_utils_name, VUtils)].

(** [x = 1] ([test_simple_variable_assignment]). *)
Definition prog_assign_x : list stmt := [Assign [Name "x"] (Constant (CInt 1)) 1].

(** [def f(a, b): return a+b] then [f(3, 4)]. *)
Definition prog_call_f : list stmt :=
  [FunctionDef "f" ["a"; "b"] [Return (Some (BinOpAdd (Name "a") (Name "b"))) 1] 1;
   Expr (Call (Name "f") [Constant (CInt 3); Constant (CInt 4)] [] 2) 2].

(** The [iteration_num]s of the [LoopIteration] records of loop [lid],
    in order. *)
Definition iteration_nums_of (recs : list StatementExecution) (lid : nat) : list nat :=
  omap (fun e => match kind e with
                 | LoopIteration k l => if Nat.eqb l lid then Some k else None
                 | _ => None
                 end) recs.

Definition is_iteration_of (lid : nat) (e : StatementExecution) : bool :=
  match kind e with LoopIteration _ l => Nat.eqb l lid | _ => false end.

(** Whether joining from [left_item] would rebind the right alias. *)
Definition collides (js : JoinStep) (left_item : PyVal) : bool :=
  match left_item with
  | VJoin m => dict_has (right_alias js) m
  | _ => false
  end.

(** A sequence of tracer primitive calls, run from a context. *)
Fixpoint run_calls (s : ExecutionContext) (cs : list tracer_call) : res ExecutionContext :=
  match cs with
  | [] => Ok s
  | c :: cs' => let? s' := ctx_step s c in run_calls s' cs'
  end.

Definition res_default {A} (d : A) (r : res A) : A :=
  match r with Ok x => x | Err _ => d end.

(** The calls the instrumented [for i in range(2): pass] makes on line 1:
    the loop record, then per iteration the iteration record, the
    snapshot of [i] and the pop, then the pop of the loop. *)
Definition for_loop_calls : list tracer_call :=
  [TRecordLoopExecution 1 "for";
   TRecordLoopIteration; TRecordVariable "i" (VInt 0) "i" 1; TPopExecution;
   TRecordLoopIteration; TRecordVariable "i" (VInt 1) "i" 1; TPopExecution;
   TPopExecution].

Definition for_loop_ctx : ExecutionContext :=
  res_default init_ctx (run_calls init_ctx for_loop_calls).

(** A loop frame opened, and the same frame closed. *)
Definition loop_opened_ctx : ExecutionContext :=
  res_default init_ctx (run_calls init_ctx [TRecordLoopExecution 1 "for"]).

Definition loop_closed_ctx : ExecutionContext :=
  res_default init_ctx (run_calls init_ctx [TRecordLoopExecution 1 "for"; TPopExecution]).

(** The invariant of the contexts a traced program can reach: the
    trace lists every record once, in creation order; the record at
    address [i] has id [i+1]; the counter is the number of records; the
    stack holds valid addresses; an iteration names an earlier loop; and
    the iterations of each loop are numbered [0 .. num_iterations-1]. *)
Record trace_inv (s : ExecutionContext) : Prop := {
  inv_trace : execution_trace s = seq 0 (length (heap s));
  inv_ids : forall i e, heap s !! i = Some e -> execution_id e = S i;
  inv_counter : execution_counter s = length (heap s);
  inv_stack : Forall (fun a => a < length (heap s)) (execution_stack s);
  inv_iter_before : forall i e k lid,
    heap s !! i = Some e -> kind e = LoopIteration k lid -> lid <= i;
  inv_loop_iters : forall j e ty n,
    heap s !! j = Some e -> kind e = LoopExecution ty n ->
    iteration_nums_of (heap s) (S j) = seq 0 n
}.

(** A left row that binds the right alias and has a matching right item. *)
Definition match_collision (js : JoinStep) (l : PyVal) (rs : list PyVal) : Prop :=
  collides js l = true /\ exists r, In r rs /\ conditions js l r = true.

(** Some left row of [items] is such a row. *)
Definition inner_collision (js : JoinStep) (items : list PyVal) : Prop :=
  exists l, In l items /\ match_collision js l (other_items js).

(* ------------------------------------------------------------------ *)
(** ** Records once created: the fields the tracer never rewrites *)

(** The kind-specific fields of a record that stay as created. *)
Inductive frozen_kind :=
| KLoop (loop_type : string)
| KIter (iteration_num : nat) (loop_execution_id : nat)
| KFunc (func_name func_full_name : string) (func_call_exec_ctx_id : nat)
| KBranch (condition_str : string) (condition_result : PyVal).

(** The fields of a record that stay as created. *)
Definition frozen (e : StatementExecution) : nat * nat * Z * frozen_kind :=
  (execution_id e, scope_id e, line_number e,
   match kind e with
   | LoopExecution ty _ => KLoop ty
   | LoopIteration k lid => KIter k lid
   | FunctionCall fn full _ _ _ cid => KFunc fn full cid
   | BranchExecution cs cr => KBranch cs cr
   end).

(** [h'] keeps every record of [h] at its address with the same
    frozen fields. *)
Definition heap_frozen_prefix (h h' : list StatementExecution) : Prop :=
  length h <= length h' /\
  forall i e, h !! i = Some e -> exists e', h' !! i = Some e' /\ frozen e' = frozen e.

(* ------------------------------------------------------------------ *)
(** ** Frames and scopes of the tracer *)

(** [isinstance(execution, FunctionCall)] in [pop_execution]. *)
Definition frame_is_call (e : StatementExecution) : bool :=
  match kind e with FunctionCall _ _ _ _ _ _ => true | _ => false end.

(** Whether the frame at address [a] is a [FunctionCall]. *)
Definition is_func_frame (h : list StatementExecution) (a : nat) : bool :=
  match h !! a with Some e => frame_is_call e | None => false end.

(** A scope stack (top first): function scopes, each the child of
    the scope below it, down to the global scope. *)
Fixpoint scope_chain (scs : list Scope) : Prop :=
  match scs with
  | [] => False
  | [sc] => sc = global_scope
  | sc :: ((sc' :: _) as rest) =>
      scope_type sc = "function" /\ parent sc = Some (sc_scope_id sc') /\
      sc_scope_id sc' < sc_scope_id sc /\ scope_chain rest
  end.

(** The scope stack of a reachable context: a chain with one scope
    per [FunctionCall] frame, plus the global one, numbered at most the
    scope counter. *)
Record scope_inv (s : ExecutionContext) : Prop := {
  si_chain : scope_chain (scope_stack s);
  si_count : length (scope_stack s) =
             S (length (List.filter (is_func_frame (heap s)) (execution_stack s)));
  si_counter : forall sc, In sc (scope_stack s) -> sc_scope_id sc <= scope_counter s
}.

(** Whether the top frame of the execution stack is a [LoopExecution]. *)
Definition top_is_loop (s : ExecutionContext) : bool :=
  match execution_stack s with
  | a :: _ => match heap s !! a with Some e => is_loop_execution e | None => false end
  | [] => false
  end.

(** What a record refers to: an iteration its loop, an earlier
    [LoopExecution]; a call the frame it was made from, an earlier record
    or none (0). *)
Definition rec_refs_ok (h : list StatementExecution) (i : nat) (e : StatementExecution) : Prop :=
  match kind e with
  | LoopIteration _ lid =>
      exists j l, lid = S j /\ j < i /\ h !! j = Some l /\ is_loop_execution l = true
  | FunctionCall _ _ _ _ _ cid => cid = 0 \/ exists j p, cid = S j /\ j < i /\ h !! j = Some p
  | _ => True
  end.

(** Every record satisfies [rec_refs_ok]. *)
Definition refs_ok (h : list StatementExecution) : Prop :=
  forall i e, h !! i = Some e -> rec_refs_ok h i e.

(* ------------------------------------------------------------------ *)
(** ** Further pipeline steps: select, offset, limit, join results *)

(** [[f(x) for x in xs]] for an [f] that may raise: the first error wins. *)
Fixpoint res_map {A B} (f : A -> res B) (xs : list A) : res (list B) :=
  match xs with
  | [] => Ok []
  | x :: xs' => let? y := f x in let? ys := res_map f xs' in Ok (y :: ys)
  end.

(** [{field: get_field_value(item, field) for field in self.fields}]. *)
Definition select_row (fields : list string) (item : PyVal) : res PyVal :=
  (fix go (fs : list string) (acc : list (string * PyVal)) : res PyVal :=
     match fs with
     | [] => Ok (VDict acc)
     | field :: fs' => let? v := get_field_value item field in go fs' (dict_set field v acc)
     end) fields [].

(** [SelectStep.apply]. *)
Definition select_apply (fields : list string) (items : list PyVal) : res (list PyVal) :=
  match fields with
  | [field] => res_map (fun item => get_field_value item field) items
  | _ => res_map (select_row fields) items
  end.

(** Python's bound of a slice [items[i:]] or [items[:i]] for a list of
    length [len]: a negative [i] counts from the end, and both are
    clamped to [0, len]. *)
Definition slice_index (i : Z) (len : nat) : nat :=
  if (i <? 0)%Z then Z.to_nat (Z.max 0 (Z.of_nat len + i)) else Z.to_nat (Z.min i (Z.of_nat len)).

(** [OffsetStep.apply]: [items[self.offset:]]. *)
Definition offset_apply (offset : Z) (items : list PyVal) : list PyVal :=
  drop (slice_index offset (length items)) items.

(** [LimitStep.apply]: [items[:self.limit]]. *)
Definition limit_apply (limit : Z) (items : list PyVal) : list PyVal :=
  take (slice_index limit (length items)) items.

(** [JoinResult.get]: [self.alias_to_items.get(alias)]. *)
Definition join_get (m : list (string * PyVal)) (alias : string) : PyVal :=
  match dict_get alias m with Some v => v | None => VNone end.

(** [JoinResult.add_alias] on [alias_to_items = m]: the new mapping. *)
Definition join_add_alias (m : list (string * PyVal)) (alias : string) (items : PyVal)
  : res (list (string * PyVal)) :=
  if dict_has alias m then Err (alias_used_error alias)
  else Ok (dict_set alias items m).

(* ------------------------------------------------------------------ *)
(** ** [DistinctStep] *)




(* ------------------------------------------------------------------ *)
(** ** [GroupByStep] *)








(* ------------------------------------------------------------------ *)
(** ** [OrderByStep] *)

(** Inserting a [(key, item)] pair into a sorted run: it goes before the
    first pair whose key is greater ([<] on the keys), after all equal ones. *)
Fixpoint sort_insert (kx : PyVal * PyVal) (run : list (PyVal * PyVal)) : res (list (PyVal * PyVal)) :=
  match run with
  | [] => Ok [kx]
  | ky :: rest =>
      let? before := py_cmp true (fst kx) (fst ky) in
      if before then Ok (kx :: ky :: rest)
      else let? r := sort_insert kx rest in Ok (ky :: r)
  end.

Fixpoint sort_go (run : list (PyVal * PyVal)) (kxs : list (PyVal * PyVal)) : res (list (PyVal * PyVal)) :=
  match kxs with
  | [] => Ok run
  | kx :: rest => let? run' := sort_insert kx run in sort_go run' rest
  end.

(** [list.sort] with precomputed keys: a stable sort on [<] of the keys;
    [reverse=True] reverses the list before and after sorting, which keeps
    items with equal keys in their original order. *)
Definition py_sort (kxs : list (PyVal * PyVal)) (reverse : bool) : res (list (PyVal * PyVal)) :=
  if reverse then let? s := sort_go [] (rev kxs) in Ok (rev s) else sort_go [] kxs.

(** [OrderByStep.apply]: [sorted(items, key=..., reverse=not is_ascending)];
    all keys are computed first. *)
Definition order_by_apply (field : string) (is_ascending : bool) (items : list PyVal)
  : res (list PyVal) :=
  let? keys := res_map (fun item => get_field_value item field) items in
  let? sorted := py_sort (zip keys items) (negb is_ascending) in
  Ok (map snd sorted).

(** The integer key of [item], for items whose [field] is an integer. *)
Definition int_key (field : string) (item : PyVal) : Z :=
  match get_field_value item field with Ok (VInt z) => z | _ => 0%Z end.

(** The integer of a key, [0] for keys that are not integers. *)
Definition zk (kx : PyVal * PyVal) : Z := match fst kx with VInt z => z | _ => 0%Z end.
(** A pair whose key is an integer. *)
Definition int_keyed (kx : PyVal * PyVal) : Prop := exists z, fst kx = VInt z.

(* ------------------------------------------------------------------ *)
(** ** [WithinBlockStep], [SelectLoopIteration] and [LoopQuery.iterations] *)

(** [lo <= x <= hi], evaluated as Python chains it. *)
Definition in_range (lo x hi : PyVal) : res bool :=
  let? b := py_cmp false lo x in if b then py_cmp false x hi else Ok false.

(** The loop of [WithinBlockStep.apply] over [execution_trace]. *)
Fixpoint stmts_in_range (start_id end_id : PyVal) (recs : list StatementExecution)
  : res (list PyVal) :=
  match recs with
  | [] => Ok []
  | stmt :: recs' =>
      let? keep := in_range start_id (zn (execution_id stmt)) end_id in
      let? r := stmts_in_range start_id end_id recs' in
      Ok (if keep then exec_obj stmt :: r else r)
  end.

(** The loop of [WithinBlockStep.apply] over [variables]. *)
Fixpoint vars_in_range (scope_id start_id end_id : PyVal) (vs : list VariableSnapshot)
  : res (list PyVal) :=
  match vs with
  | [] => Ok []
  | var :: vs' =>
      let? keep :=
        if py_eq (zn (vs_scope_id var)) scope_id
        then in_range start_id (zn (vs_execution_id var)) end_id
        else Ok false in
      let? r := vars_in_range scope_id start_id end_id vs' in
      Ok (if keep then snapshot_obj var :: r else r)
  end.

(** The loop of [WithinBlockStep.apply] over the items. *)
Fixpoint within_block_go (s : ExecutionContext) (items : list PyVal) : res (list PyVal) :=
  match items with
  | [] => Ok []
  | item :: rest =>
      match py_getattr_opt item "scope_id", py_getattr_opt item "execution_id" with
      | Some scope_id, Some start_id =>
          let end_id :=
            match py_getattr_opt item "end_execution_id" with
            | Some v => v
            | None => start_id
            end in
          let? stmts := stmts_in_range start_id end_id (trace_records s) in
          let? vars := vars_in_range scope_id start_id end_id (variables s) in
          let? r := within_block_go s rest in
          Ok (stmts ++ vars ++ r)
      | _, _ => Err (QueryEngineError "Item does not have scope_id or execution_id attributes.")
      end
  end.

(** [WithinBlockStep.apply] on the context [s]. *)
Definition within_block_apply (s : ExecutionContext) (items : list PyVal) : res (list PyVal) :=
  match items with
  | [] => Ok []
  | _ :: _ => within_block_go s items
  end.

(** The comprehension of [SelectLoopIteration.apply]. *)
Fixpoint iterations_of (eid : PyVal) (its : list PyVal) : res (list PyVal) :=
  match its with
  | [] => Ok []
  | iteration :: its' =>
      match py_getattr_opt iteration "loop_execution_id" with
      | Some lid => let? r := iterations_of eid its' in Ok (if py_eq lid eid then iteration :: r else r)
      | None => Err (AttributeError "loop_execution_id")
      end
  end.

(** [SelectLoopIteration.apply]. *)
Definition select_loop_iteration (loop_iterations items : list PyVal) : res (list PyVal) :=
  res_map (fun item =>
    match item with
    | VObj cls _ =>
        if String.eqb cls "LoopExecution" then
          match py_getattr_opt item "execution_id" with
          | Some eid => let? iterations := iterations_of eid loop_iterations in Ok (VList iterations)
          | None => Err (AttributeError "execution_id")
          end
        else Err (QueryEngineError "Item is not a LoopExecution instance.")
    | _ => Err (QueryEngineError "Item is not a LoopExecution instance.")
    end) items.

(** [Query(ctx).loop_iterations().execute()]: the rows of the trace and
    the variables whose [stmt_type] is ["loop_iteration"]. *)
Definition loop_iteration_rows (s : ExecutionContext) : res (list PyVal) :=
  where_apply [mkCond "stmt_type" "==" (VStr "loop_iteration")] (query_items s).

(** [stmt_type == "loop_iteration"] on a record. *)
Definition is_loop_iteration_rec (e : StatementExecution) : bool :=
  String.eqb (stmt_type e) "loop_iteration".

(* ------------------------------------------------------------------ *)
(** ** A traced call with a loop, as a sample context *)

(** The calls of tracing [def f(): for i in range(1): i] up to the
    snapshot of [i]. *)
Definition call_calls : list tracer_call :=
  [TRecordFunctionCall 1 "f" "f"; TRecordLoopExecution 2 "for"; TRecordLoopIteration;
   TRecordVariable "i" (VInt 0) "i" 2].

Definition call_ctx : ExecutionContext := res_default init_ctx (run_calls init_ctx call_calls).

(** Its three records. *)
Definition call_rec : StatementExecution := mkExec 1 0 1 (FunctionCall "f" "f" None [] VNone 0).
Definition loop_rec : StatementExecution := mkExec 2 1 2 (LoopExecution "for" 1).
Definition iter_rec : StatementExecution := mkExec 3 1 2 (LoopIteration 0 2).

(* ================================================================== *)
(** * Properties *)

(** ** Step tracer driver *)

(** C1 (code bug).  The driver binds the context under
    [_step_tracer_execution_context], while every call the transformer
    injects reads [_step_tracer_exec_ctx]: running the transformed
    [x = 1] raises [NameError] at the first injected call, and so does
    the transformed [def f(a, b): return a+b; f(3, 4)]. *)
Theorem driver_ctx_name_mismatch :
  driver_ctx_name <> exec_ctx_name /\
  execute_transformed_code (transform_code prog_assign_x) None
    = Err (NameError exec_ctx_name) /\
  execute_transformed_code (transform_code prog_call_f) None
    = Err (NameError exec_ctx_name).
Proof.
  split; [discriminate | split; vm_compute; reflexivity].
Qed.

(** ** Function-call records *)

(** C4 (corrected).  Run with the context bound under the name the
    injected calls use, the program [def f(a, b): return a+b] followed
    by [f(3, 4)] leaves exactly one record in the trace: a
    [FunctionCall] for [f] (name and full name ["f"], defined on line 1,
    called on line 2) whose arguments are [{"a": 3, "b": 4}]: the
    call-site entries [_arg0] and [_arg1] are cleared by the
    [reset_args] the function body starts with, and re-added under the
    parameter names.  The return value is 7. *)
Theorem traced_call_f_record :
  exists s,
    exec_module transformer_env (transform_code prog_call_f) = Ok s /\
    trace_records s =
      [mkExec 1 0 2 (FunctionCall "f" "f" (Some 1%Z) [("a", VInt 3); ("b", VInt 4)] (VInt 7) 0)].
Proof.
  eexists; split; [vm_compute; reflexivity | vm_compute; reflexivity].
Qed.

(** C4, the claim at its own input: no run of the program, through the
    driver or with the context bound under the injected name, yields a
    [FunctionCall] for [f] with arguments [{"_arg0": 3, "_arg1": 4}]. *)
Lemma traced_call_f_not_positional_args :
  ~ exists s r defl cid,
      (execute_transformed_code (transform_code prog_call_f) None = Ok s \/
       exec_module transformer_env (transform_code prog_call_f) = Ok s) /\
      In r (trace_records s) /\
      kind r = FunctionCall "f" "f" defl [("_arg0", VInt 3); ("_arg1", VInt 4)] (VInt 7) cid.
Proof.
  intros (s & r & defl & cid & [H | H] & Hin & Hk); vm_compute in H; [discriminate |].
  injection H as <-. vm_compute in Hin.
  destruct Hin as [<- | []]. simpl in Hk. discriminate.
Qed.

(** ** Map and reduce *)

(** C9.  [reduce] after [map(lambda x: [x])] gives back the rows. *)
Theorem reduce_after_singleton_map (items : list PyVal) :
  reduce_apply (map_apply (fun x => VList [x]) items) = items.
Proof.
  induction items as [| x rest IH]; [reflexivity |].
  simpl in *. rewrite IH. reflexivity.
Qed.

(** ** Field-path resolution *)

(** C10.  On a dict row, a path segment that names a built-in attribute
    of [dict] ([items], [keys], [get], ...) resolves to that attribute
    (the bound method), whatever the dict stores under that key. *)
Theorem get_field_value_dict_attribute_first (kvs : list (string * PyVal)) (k : string)
  (Hk : In k dict_attr_names) :
  get_field_value (VDict kvs) k = Ok (VMethod (VDict kvs) k).
Proof.
  unfold dict_attr_names, object_dunders in Hk. simpl in Hk.
  repeat (destruct Hk as [<- | Hk]; [reflexivity |]). destruct Hk.
Qed.

Lemma get_field_value_dict_attribute_first_witness :
  In "items" dict_attr_names /\
  get_field_value (VDict [("items", VInt 5)]) "items"
    = Ok (VMethod (VDict [("items", VInt 5)]) "items").
Proof.
  assert (H : In "items" dict_attr_names)
    by (vm_compute; repeat (first [left; reflexivity | right])).
  split; [exact H | apply (get_field_value_dict_attribute_first _ _ H)].
Defined.

(** ** Trace invariants *)

Lemma omap_nil_lookup {A B} (f : A -> option B) (l : list A) :
  (forall i x, l !! i = Some x -> f x = None) -> omap f l = [].
Proof.
  induction l as [| x l IH]; intros H; [reflexivity |].
  simpl. rewrite (H 0 x eq_refl). apply IH. intros i y Hy. exact (H (S i) y Hy).
Qed.

Lemma omap_insert_same {A B} (f : A -> option B) (l : list A) (a : nat) (x y : A) :
  l !! a = Some y -> f x = f y -> omap f (<[a := x]> l) = omap f l.
Proof.
  revert a. induction l as [| z l IH]; intros a Ha Hf; [discriminate |].
  destruct a as [| a].
  - injection Ha as ->. change (omap f (x :: l) = omap f (y :: l)). simpl. rewrite Hf. reflexivity.
  - specialize (IH a Ha Hf).
    change (omap f (z :: <[a := x]> l) = omap f (z :: l)).
    simpl. unfold omap in IH. rewrite IH. reflexivity.
Qed.

Lemma iteration_nums_of_app l1 l2 lid :
  iteration_nums_of (l1 ++ l2) lid = iteration_nums_of l1 lid ++ iteration_nums_of l2 lid.
Proof. unfold iteration_nums_of. apply omap_app. Qed.

Lemma omap_lookup_seq {A} (l : list A) n :
  n <= length l -> omap (fun a => l !! a) (seq 0 n) = take n l.
Proof.
  induction n as [| n IH]; intros Hn; [rewrite take_0; reflexivity |].
  rewrite seq_S, omap_app, IH by lia. simpl.
  destruct (lookup_lt_is_Some_2 l n) as [x Hx]; [lia |].
  rewrite Hx. simpl. rewrite (take_S_r _ _ x Hx). reflexivity.
Qed.

Lemma trace_records_heap s : trace_inv s -> trace_records s = heap s.
Proof.
  intros Hi. unfold trace_records. rewrite (inv_trace _ Hi).
  rewrite omap_lookup_seq by lia. apply take_ge. lia.
Qed.

Lemma init_inv : trace_inv init_ctx.
Proof.
  split; simpl; try reflexivity; try constructor; intros i e; rewrite lookup_nil; discriminate.
Qed.

(** Appending a fresh non-iteration record and pushing it. *)
Lemma inv_push_new s e vs ss sc :
  trace_inv s ->
  execution_id e = S (length (heap s)) ->
  match kind e with
  | LoopIteration _ _ => False
  | LoopExecution _ n => n = 0
  | _ => True
  end ->
  trace_inv (mkCtx (heap s ++ [e]) (execution_trace s ++ [length (heap s)]) vs
                   (length (heap s) :: execution_stack s) ss (S (execution_counter s)) sc).
Proof.
  intros Hi Hid Hk. destruct Hi as [Ht Hids Hc Hst Hib Hli].
  split; simpl; rewrite ?length_app; simpl.
  - rewrite Ht, Nat.add_1_r, seq_S. reflexivity.
  - intros i x Hx. apply lookup_app_Some in Hx as [Hx | [Hle Hx]]; [eauto |].
    apply list_lookup_singleton_Some in Hx as [Hi0 <-]. rewrite Hid. f_equal. lia.
  - lia.
  - constructor; [lia |]. eapply Forall_impl; [exact Hst | simpl; lia].
  - intros i x k lid Hx Hxk. apply lookup_app_Some in Hx as [Hx | [Hle Hx]]; [eauto |].
    apply list_lookup_singleton_Some in Hx as [_ <-]. rewrite Hxk in Hk. destruct Hk.
  - intros j x ty n Hx Hxk. rewrite iteration_nums_of_app.
    assert (Hnil : iteration_nums_of [e] (S j) = []).
    { unfold iteration_nums_of. simpl. destruct (kind e); try reflexivity. destruct Hk. }
    rewrite Hnil, app_nil_r.
    apply lookup_app_Some in Hx as [Hx | [Hle Hx]]; [eauto |].
    apply list_lookup_singleton_Some in Hx as [Hj <-]. rewrite Hxk in Hk. subst n.
    assert (j = length (heap s)) by lia. subst j.
    apply omap_nil_lookup. intros i y Hy.
    destruct (kind y) as [ty0 n0 | k lid | fn full defl args ret cid | cs cr] eqn:Hky; try reflexivity.
    pose proof (Hib i y _ _ Hy Hky). apply lookup_lt_Some in Hy.
    destruct (Nat.eqb_spec lid (S (length (heap s)))); [lia | reflexivity].
Qed.

(** Steps that leave the records, the trace and the counter alone. *)
Lemma inv_same_heap s s' :
  trace_inv s -> heap s' = heap s -> execution_trace s' = execution_trace s ->
  execution_counter s' = execution_counter s ->
  (forall a, In a (execution_stack s') -> In a (execution_stack s)) ->
  trace_inv s'.
Proof.
  intros [Ht Hids Hc Hst Hib Hli] Hh Htr Hcn Hs.
  split; rewrite ?Hh, ?Htr, ?Hcn; try assumption.
  apply List.Forall_forall. intros a Ha. rewrite List.Forall_forall in Hst. auto.
Qed.

Lemma iteration_nums_of_single e lid :
  iteration_nums_of [e] lid =
  match kind e with
  | LoopIteration k l => if Nat.eqb l lid then [k] else []
  | _ => []
  end.
Proof. unfold iteration_nums_of. simpl. destruct (kind e); try reflexivity. destruct (Nat.eqb _ _); reflexivity. Qed.

(** [exec_method]: a [FunctionCall] record replaced by a [FunctionCall]
    record with the same id. *)
Lemma inv_exec_method s a meth args s' :
  trace_inv s -> exec_method s a meth args = Ok s' -> trace_inv s'.
Proof.
  intros Hi H. unfold exec_method in H.
  destruct (heap s !! a) as [[eid sid line k] |] eqn:Ha; [| discriminate].
  destruct k as [ty n | k lid | fn full defl arguments ret cid | cs cr]; try discriminate.
  assert (Hgen : forall k', (exists fn' full' defl' args' ret' cid',
            k' = FunctionCall fn' full' defl' args' ret' cid') ->
            trace_inv (heap_update s a (mkExec eid sid line k'))).
  { intros k' (fn' & full' & defl' & args' & ret' & cid' & ->).
    destruct Hi as [Ht Hids Hc Hst Hib Hli]. unfold heap_update.
    split; simpl; rewrite ?length_insert; try assumption.
    - intros i x Hx. apply list_lookup_insert_Some in Hx
        as [(<- & <- & _) | (_ & Hx)]; [| eauto].
      simpl. exact (Hids a _ Ha).
    - intros i x k0 lid Hx Hxk. apply list_lookup_insert_Some in Hx
        as [(<- & <- & _) | (_ & Hx)]; [discriminate | eauto].
    - intros j x ty n Hx Hxk. apply list_lookup_insert_Some in Hx
        as [(<- & <- & _) | (_ & Hx)]; [discriminate |].
      unfold iteration_nums_of. erewrite omap_insert_same; [| exact Ha | reflexivity].
      exact (Hli j x ty n Hx Hxk). }
  destruct meth as [| c0 m0]; [destruct args; discriminate |].
  repeat match type of H with
  | context [match ?x with _ => _ end] => destruct x; try discriminate
  end;
  injection H as <-; apply Hgen; eauto 7.
Qed.

Lemma inv_record_loop_iteration s s' :
  trace_inv s -> record_loop_iteration s = Ok s' -> trace_inv s'.
Proof.
  intros Hi H. unfold record_loop_iteration, current_execution in H.
  destruct (execution_stack s) as [| a st] eqn:Hstk; [discriminate |]. simpl in H.
  destruct (heap s !! a) as [loop |] eqn:Ha; [| discriminate].
  destruct (is_loop_execution loop) eqn:Hl; [| discriminate].
  unfold generate_execution_id, current_scope in H. simpl in H.
  destruct (scope_stack s) as [| sc scs]; [discriminate |]. simpl in H.
  unfold start_iteration in H.
  destruct loop as [lid0 lsid lline lk]. simpl in *.
  destruct lk as [ty n | | |]; try discriminate.
  injection H as <-.
  destruct Hi as [Ht Hids Hc Hst Hib Hli].
  assert (Haid : lid0 = S a) by exact (Hids a _ Ha).
  assert (Halt : a < length (heap s)) by (apply lookup_lt_Some in Ha; exact Ha).
  unfold heap_update, push_execution. simpl.
  split; simpl; rewrite ?length_app, ?length_insert; simpl.
  - rewrite Ht, Nat.add_1_r, seq_S. reflexivity.
  - intros i x Hx. apply lookup_app_Some in Hx as [Hx | [Hle Hx]].
    + apply list_lookup_insert_Some in Hx as [(<- & <- & _) | (_ & Hx)]; [exact Haid | eauto].
    + rewrite length_insert in *.
      apply list_lookup_singleton_Some in Hx as [Hi0 <-]. simpl. rewrite Hc. f_equal. lia.
  - rewrite Hc. lia.
  - constructor; [lia |]. rewrite ?Hstk in Hst |- *. eapply Forall_impl; [exact Hst | simpl; lia].
  - intros i x k lid Hx Hxk. apply lookup_app_Some in Hx as [Hx | [Hle Hx]].
    + apply list_lookup_insert_Some in Hx as [(<- & <- & _) | (_ & Hx)]; [discriminate | eauto].
    + rewrite length_insert in *.
      apply list_lookup_singleton_Some in Hx as [Hi0 <-]. simpl in Hxk.
      injection Hxk as <- <-. lia.
  - intros j x ty' n' Hx Hxk.
    rewrite iteration_nums_of_app, iteration_nums_of_single. simpl.
    unfold iteration_nums_of at 1.
    erewrite omap_insert_same; [| exact Ha | reflexivity]. fold (iteration_nums_of (heap s) (S j)).
    apply lookup_app_Some in Hx as [Hx | [Hle Hx]].
    + apply list_lookup_insert_Some in Hx as [(<- & <- & _) | (Hne & Hx)].
      * simpl in Hxk. injection Hxk as <- <-.
        rewrite (Hli a _ ty n Ha eq_refl), Haid, Nat.eqb_refl, seq_S. reflexivity.
      * rewrite (Hli j x ty' n' Hx Hxk), Haid.
        destruct (Nat.eqb_spec (S a) (S j)); [lia |]. apply app_nil_r.
    + apply list_lookup_singleton_Some in Hx as [_ <-]. discriminate.
Qed.

Lemma inv_step s c s' : trace_inv s -> ctx_step s c = Ok s' -> trace_inv s'.
Proof.
  intros Hi H. pose proof (inv_counter _ Hi) as Hc.
  destruct c as [line ty | | line fn full | line cs cr | n v p line | | a m args]; simpl in H.
  - unfold record_loop_execution, generate_execution_id, current_scope, alloc, push_execution in H. simpl in H.
    destruct (scope_stack s); [discriminate |]. injection H as <-.
    apply inv_push_new; simpl; auto.
  - exact (inv_record_loop_iteration _ _ Hi H).
  - unfold record_function_call, generate_execution_id, generate_scope_id, push_scope, current_scope, alloc, push_execution in H. simpl in H.
    destruct (scope_stack s); [discriminate |]. simpl in H. injection H as <-.
    apply inv_push_new; simpl; auto.
  - unfold record_branch_execution, generate_execution_id, current_scope, alloc, push_execution in H. simpl in H.
    destruct (scope_stack s); [discriminate |]. injection H as <-.
    apply inv_push_new; simpl; auto.
  - unfold record_variable, current_scope in H.
    destruct (scope_stack s); [discriminate |]. injection H as <-.
    apply (inv_same_heap s); auto.
  - unfold pop_execution in H. destruct (execution_stack s) as [| a st] eqn:Hst; [discriminate |].
    assert (Hin : forall x, In x st -> In x (execution_stack s)) by (rewrite Hst; right; auto).
    destruct (heap s !! a) as [[? ? ? [] ] |];
      try (injection H as <-; apply (inv_same_heap s); auto; fail).
    unfold pop_scope in H. simpl in H. destruct (scope_stack s); [discriminate |].
    injection H as <-. apply (inv_same_heap s); auto.
  - exact (inv_exec_method _ _ _ _ _ Hi H).
Qed.

Lemma reachable_inv s : reachable s -> trace_inv s.
Proof.
  induction 1 as [| s c s' _ IH Hstep]; [exact init_inv | exact (inv_step _ _ _ IH Hstep)].
Qed.

Lemma run_calls_reachable s cs s' : reachable s -> run_calls s cs = Ok s' -> reachable s'.
Proof.
  revert s. induction cs as [| c cs IH]; intros s Hs H; simpl in H.
  - injection H as <-. exact Hs.
  - destruct (ctx_step s c) as [s1 |] eqn:E; [| discriminate].
    exact (IH s1 (reach_step _ _ _ Hs E) H).
Qed.

Lemma length_filter_iterations l lid :
  length (List.filter (is_iteration_of lid) l) = length (iteration_nums_of l lid).
Proof.
  induction l as [| e l IH]; [reflexivity |].
  unfold iteration_nums_of, is_iteration_of in *. simpl.
  destruct (kind e); simpl; try exact IH. destruct (Nat.eqb _ lid); simpl; auto.
Qed.

Lemma map_execution_id_seq l k :
  (forall i e, l !! i = Some e -> execution_id e = S (k + i)) ->
  map execution_id l = seq (S k) (length l).
Proof.
  revert k. induction l as [| e l IH]; intros k H; [reflexivity |]. simpl.
  rewrite (H 0 e eq_refl), Nat.add_0_r. f_equal.
  apply IH. intros i x Hx. rewrite (H (S i) x Hx). f_equal. lia.
Qed.

(** C5.  In every context a traced program can reach, for every
    [LoopExecution] record [L] of the trace with [num_iterations = n],
    the trace holds exactly [n] [LoopIteration] records whose
    [loop_execution_id] is [L.execution_id], and their [iteration_num]s,
    in trace (creation) order, are [0, 1, ..., n-1]. *)
Theorem loop_iterations_counted s L ty n
  (Hs : reachable s) (HL : In L (trace_records s)) (Hk : kind L = LoopExecution ty n) :
  length (List.filter (is_iteration_of (execution_id L)) (trace_records s)) = n /\
  iteration_nums_of (trace_records s) (execution_id L) = seq 0 n.
Proof.
  pose proof (reachable_inv _ Hs) as Hi.
  rewrite (trace_records_heap _ Hi) in *.
  apply list_elem_of_In, list_elem_of_lookup in HL as [j Hj].
  rewrite (inv_ids _ Hi j L Hj), length_filter_iterations, (inv_loop_iters _ Hi j L ty n Hj Hk).
  split; [apply length_seq | reflexivity].
Qed.

Lemma loop_iterations_counted_witness :
  reachable for_loop_ctx /\
  In (mkExec 1 0 1 (LoopExecution "for" 2)) (trace_records for_loop_ctx) /\
  kind (mkExec 1 0 1 (LoopExecution "for" 2)) = LoopExecution "for" 2 /\
  length (List.filter (is_iteration_of 1) (trace_records for_loop_ctx)) = 2 /\
  iteration_nums_of (trace_records for_loop_ctx) 1 = seq 0 2.
Proof.
  assert (Hr : reachable for_loop_ctx)
    by (apply (run_calls_reachable init_ctx for_loop_calls); [exact reach_init | vm_compute; reflexivity]).
  assert (Hin : In (mkExec 1 0 1 (LoopExecution "for" 2)) (trace_records for_loop_ctx))
    by (vm_compute; left; reflexivity).
  split; [exact Hr | split; [exact Hin | split; [reflexivity |]]].
  exact (loop_iterations_counted for_loop_ctx _ "for" 2 Hr Hin eq_refl).
Defined.

(** C7.  In every context a traced program can reach, the
    [execution_id]s of the trace records, in trace order, are
    [1, 2, ..., len(trace)]: strictly increasing, issued from the one
    counter (whose value is the number of records) and never 0.  The id
    0 stands for "outside any frame": the current execution id is 0
    exactly when the execution stack is empty, and a variable recorded
    then gets [execution_id] 0. *)
Theorem execution_ids_increasing s (Hs : reachable s) :
  map execution_id (trace_records s) = seq 1 (length (trace_records s)) /\
  (forall i j ei ej, i < j -> trace_records s !! i = Some ei -> trace_records s !! j = Some ej ->
     execution_id ei < execution_id ej) /\
  execution_counter s = length (trace_records s) /\
  (current_execution_id s = 0 <-> execution_stack s = []) /\
  (forall name value path line s', execution_stack s = [] ->
     record_variable s name value path line = Ok s' ->
     exists snap, variables s' = variables s ++ [snap] /\ vs_execution_id snap = 0).
Proof.
  pose proof (reachable_inv _ Hs) as Hi. rewrite (trace_records_heap _ Hi).
  split; [| split; [| split; [| split]]].
  - apply (map_execution_id_seq _ 0). intros i e He. exact (inv_ids _ Hi i e He).
  - intros i j ei ej Hij Hei Hej.
    rewrite (inv_ids _ Hi i ei Hei), (inv_ids _ Hi j ej Hej). lia.
  - exact (inv_counter _ Hi).
  - unfold current_execution_id, current_execution.
    pose proof (inv_stack _ Hi) as Hst.
    destruct (execution_stack s) as [| a st]; simpl; [tauto |].
    split; [| discriminate]. intros H0. exfalso.
    inversion Hst as [| ? ? Ha _]; subst.
    destruct (lookup_lt_is_Some_2 (heap s) a Ha) as [e He]. rewrite He in H0.
    rewrite (inv_ids _ Hi a e He) in H0. discriminate.
  - intros name value path line s' Hst H. unfold record_variable, current_execution_id,
      current_execution in H. rewrite Hst in H. simpl in H.
    destruct (current_scope s) as [sc |]; [| discriminate]. injection H as <-.
    eexists. split; [reflexivity | reflexivity].
Qed.

Lemma execution_ids_increasing_witness :
  reachable for_loop_ctx /\
  map execution_id (trace_records for_loop_ctx) = seq 1 (length (trace_records for_loop_ctx)).
Proof.
  assert (Hr : reachable for_loop_ctx)
    by (apply (run_calls_reachable init_ctx for_loop_calls); [exact reach_init | vm_compute; reflexivity]).
  split; [exact Hr | exact (proj1 (execution_ids_increasing for_loop_ctx Hr))].
Defined.

(** C2 (code bug).  [pop_execution] leaves every record as it was:
    the popped frame gets no [end_execution_id] (none of the record
    classes has that attribute, so a query on the field raises
    [InvalidFieldError]), although [query_generator.py] reads
    [left_exec.end_execution_id]. *)
Theorem pop_execution_leaves_record s s' (H : pop_execution s = Ok s') :
  heap s' = heap s /\ trace_records s' = trace_records s /\
  forall e, In e (trace_records s') ->
    get_field_value (exec_obj e) "end_execution_id" = Err (InvalidFieldError "end_execution_id").
Proof.
  assert (Hobj : forall e, get_field_value (exec_obj e) "end_execution_id"
                           = Err (InvalidFieldError "end_execution_id"))
    by (intros [eid sid line []]; vm_compute; reflexivity).
  unfold pop_execution in H. destruct (execution_stack s) as [| a st]; [discriminate |].
  assert (Hs1 : heap s' = heap s /\ execution_trace s' = execution_trace s).
  { destruct (heap s !! a) as [[? ? ? [] ] |];
      try (injection H as <-; split; reflexivity).
    unfold pop_scope in H. simpl in H. destruct (scope_stack s); [discriminate |].
    injection H as <-. split; reflexivity. }
  destruct Hs1 as [Hh Ht].
  split; [exact Hh | split; [unfold trace_records; rewrite Hh, Ht; reflexivity | intros e _; apply Hobj]].
Qed.

Lemma pop_execution_leaves_record_witness :
  pop_execution loop_opened_ctx = Ok loop_closed_ctx /\
  heap loop_closed_ctx = heap loop_opened_ctx /\
  trace_records loop_closed_ctx = [mkExec 1 0 1 (LoopExecution "for" 0)].
Proof.
  assert (H : pop_execution loop_opened_ctx = Ok loop_closed_ctx) by (vm_compute; reflexivity).
  destruct (pop_execution_leaves_record _ _ H) as [Hh [Ht _]].
  split; [exact H | split; [exact Hh | rewrite Ht; vm_compute; reflexivity]].
Defined.

(** ** Where conditions *)

Lemma resolve_fields_err obj fields e :
  resolve_fields obj fields = Err e -> exists f, e = InvalidFieldError f.
Proof.
  revert obj. induction fields as [| f fs IH]; intros obj H; simpl in H; [discriminate |].
  destruct obj as [| | | | kvs | | | m | | | | |];
    try (destruct (py_getattr_opt _ f); [eapply IH; exact H | injection H as <-; eauto]).
  - destruct (py_getattr_opt _ f); [eapply IH; exact H |].
    destruct (dict_get f kvs); [eapply IH; exact H | injection H as <-; eauto].
  - destruct (dict_get f m) as [[] |]; try discriminate; eapply IH; exact H.
Qed.

Lemma py_cmp_err strict : forall a b e, py_cmp strict a b = Err e -> e = TypeError.
Proof.
  fix IH 1. intros a b e H.
  destruct a as [| | | | xs | | | | | | | |], b as [| | | | ys | | | | | | | |];
    simpl in H;
    try (destruct (py_num _); try discriminate);
    try (destruct (py_num _); try discriminate);
    try (injection H as <-; reflexivity); try discriminate.
  revert ys H. induction xs as [| x xs IHxs]; intros [| y ys] H; try discriminate.
  destruct (py_eq x y); [exact (IHxs ys H) | exact (IH x y e H)].
Qed.

Lemma py_contains_err c x e : py_contains c x = Err e -> e = TypeError.
Proof.
  unfold py_contains. intros H.
  destruct c; try (injection H as <-; reflexivity); try discriminate.
  - destruct x; try (injection H as <-; reflexivity); discriminate.
  - destruct (is_hashable x); [destruct x; discriminate | injection H as <-; reflexivity].
Qed.

Lemma op_map_err op op_func x y e :
  op_map op = Some op_func -> op_func x y = Err e -> e = TypeError.
Proof.
  unfold op_map. intros Hop H.
  repeat match type of Hop with
  | context [if ?b then _ else _] => destruct b
  end; try discriminate Hop; injection Hop as <-; try discriminate;
  try (exact (py_cmp_err _ _ _ _ H)); try (exact (py_contains_err _ _ _ H)).
  destruct (py_contains y x) eqn:E; [discriminate |]. injection H as <-.
  exact (py_contains_err _ _ _ E).
Qed.

(** C3 (corrected).  [QueryCondition.evaluate] on a row: when the field
    path does not resolve, the [InvalidFieldError] of [get_field_value]
    propagates (it is not caught); when it resolves,
    an operator outside [op_map] raises [InvalidOperatorError], and a
    comparison that fails (always with [TypeError]) gives [False]. *)
Theorem evaluate_outcomes (c : QueryCondition) (obj : PyVal) :
  (forall e, get_field_value obj (qc_field c) = Err e ->
     evaluate c obj = Err e /\ exists f, e = InvalidFieldError f) /\
  (forall v, get_field_value obj (qc_field c) = Ok v ->
     match op_map (qc_op c) with
     | None => evaluate c obj = Err (InvalidOperatorError (qc_op c))
     | Some op_func =>
         evaluate c obj = match op_func v (qc_value c) with Ok b => Ok b | Err _ => Ok false end
     end).
Proof.
  unfold evaluate. split.
  - intros e He. destruct (resolve_fields_err _ _ _ He) as [f ->].
    rewrite He. simpl. split; [reflexivity | eauto].
  - intros v Hv. rewrite Hv. simpl.
    destruct (op_map (qc_op c)) as [op_func |] eqn:Hop; [| reflexivity].
    destruct (op_func v (qc_value c)) as [b | e] eqn:Hr; [reflexivity |].
    rewrite (op_map_err _ _ _ _ _ Hop Hr). reflexivity.
Qed.

Lemma evaluate_outcomes_witness :
  get_field_value (snapshot_obj (mkSnapshot "x" (VInt 1) "x" 1 0 1)) "name" = Ok (VStr "x") /\
  evaluate (mkCond "name" "<" (VInt 3)) (snapshot_obj (mkSnapshot "x" (VInt 1) "x" 1 0 1)) = Ok false.
Proof.
  assert (Hv : get_field_value (snapshot_obj (mkSnapshot "x" (VInt 1) "x" 1 0 1)) "name"
               = Ok (VStr "x")) by (vm_compute; reflexivity).
  pose proof (proj2 (evaluate_outcomes (mkCond "name" "<" (VInt 3))
                       (snapshot_obj (mkSnapshot "x" (VInt 1) "x" 1 0 1))) _ Hv) as H.
  vm_compute in H. split; [exact Hv | exact H].
Defined.

(** C3, at its own input: on the rows of a trace with a branch and a
    variable, the condition [condition_str == "x > 0"] does not resolve
    on the [VariableSnapshot] row, and [evaluate] and [where] raise
    [InvalidFieldError] instead of dropping the row. *)
Lemma evaluate_unresolvable_field_raises :
  evaluate (mkCond "condition_str" "==" (VStr "x > 0"))
           (snapshot_obj (mkSnapshot "x" (VInt 1) "x" 1 0 1))
    = Err (InvalidFieldError "condition_str") /\
  where_apply [mkCond "condition_str" "==" (VStr "x > 0")]
    [exec_obj (mkExec 1 0 1 (BranchExecution "x > 0" (VBool true)));
     snapshot_obj (mkSnapshot "x" (VInt 1) "x" 1 0 1)]
    = Err (InvalidFieldError "condition_str").
Proof. split; vm_compute; reflexivity. Qed.

(** ** Joins *)

Section Joins.
Variable js : JoinStep.
Hypothesis Hne : left_alias js <> right_alias js.

Lemma create_joined_cases l r :
  match _create_joined_result js l r with
  | Ok _ => collides js l = false
  | Err e => e = alias_used_error (right_alias js) /\ collides js l = true
  end.
Proof.
  unfold _create_joined_result, collides.
  destruct l; try (unfold dict_has; simpl;
    destruct (String.eqb_spec (right_alias js) (left_alias js)) as [E | _];
    [congruence | reflexivity]).
  destruct (dict_has (right_alias js) alias_to_items); auto.
Qed.

Lemma create_joined_none r : exists x, _create_joined_result js VNone r = Ok x.
Proof.
  pose proof (create_joined_cases VNone r) as H.
  destruct (_create_joined_result js VNone r) as [x | e]; [eauto |].
  destruct H as [_ H]. discriminate.
Qed.

Lemma join_matches_cases l rs :
  match join_matches js l rs with
  | Ok ms => ~ match_collision js l rs /\ length ms = length (List.filter (conditions js l) rs)
  | Err e => e = alias_used_error (right_alias js) /\ match_collision js l rs
  end.
Proof.
  unfold match_collision.
  induction rs as [| r rs IH]; simpl.
  - split; [intros (_ & r & [] & _) | reflexivity].
  - destruct (conditions js l r) eqn:Hc.
    + pose proof (create_joined_cases l r) as Hcr.
      destruct (_create_joined_result js l r) as [x | e]; simpl.
      * destruct (join_matches js l rs) as [ms | e]; simpl.
        -- destruct IH as [IHn IHl]. split; [| simpl; f_equal; exact IHl].
           intros [Hcol _]. congruence.
        -- destruct IH as [-> [Hcol (r' & Hin & Hc')]].
           split; [reflexivity | split; [exact Hcol | exists r'; auto]].
      * destruct Hcr as [-> Hcol]. split; [reflexivity | split; [exact Hcol | exists r; auto]].
    + destruct (join_matches js l rs) as [ms | e].
      * destruct IH as [IHn IHl]. split; [| exact IHl].
        intros [Hcol (r' & [<- | Hin] & Hc')]; [congruence | apply IHn; eauto].
      * destruct IH as [-> [Hcol (r' & Hin & Hc')]].
        split; [reflexivity | split; [exact Hcol | exists r'; auto]].
Qed.

Lemma length_filter_pair (f : PyVal -> PyVal -> bool) l rs :
  length (List.filter (fun p => f (fst p) (snd p)) (map (pair l) rs))
  = length (List.filter (f l) rs).
Proof. induction rs as [| r rs IH]; simpl; [reflexivity |]. destruct (f l r); simpl; auto. Qed.

Lemma inner_join_cases items :
  match inner_join_apply js items with
  | Ok rows => ~ inner_collision js items /\
      length rows = length (List.filter (fun p => conditions js (fst p) (snd p))
                              (list_prod items (other_items js)))
  | Err e => e = alias_used_error (right_alias js) /\ inner_collision js items
  end.
Proof.
  unfold inner_collision.
  induction items as [| l ls IH]; simpl.
  - split; [intros (l & [] & _) | reflexivity].
  - pose proof (join_matches_cases l (other_items js)) as Hm.
    destruct (join_matches js l (other_items js)) as [ms | e]; simpl.
    + destruct (inner_join_apply js ls) as [rest | e]; simpl.
      * destruct Hm as [Hmn Hml], IH as [IHn IHl].
        split.
        -- intros (l' & [<- | Hin] & Hcol); [exact (Hmn Hcol) | apply IHn; eauto].
        -- rewrite List.filter_app, !length_app, Hml, IHl, length_filter_pair. reflexivity.
      * destruct IH as [-> (l' & Hin & Hcol)]. split; [reflexivity | exists l'; auto].
    + destruct Hm as [-> Hcol]. split; [reflexivity | exists l; auto].
Qed.

Lemma left_join_cases items :
  match left_join_apply js items with
  | Ok rows => (forall l, In l items -> collides js l = false) /\ length items <= length rows
  | Err e => e = alias_used_error (right_alias js) /\ exists l, In l items /\ collides js l = true
  end.
Proof.
  induction items as [| l ls IH]; simpl.
  - split; [intros l [] | reflexivity].
  - pose proof (join_matches_cases l (other_items js)) as Hm.
    destruct (join_matches js l (other_items js)) as [ms | e]; simpl.
    + destruct Hm as [Hmn Hml].
      assert (Hrow : match (if existsb (conditions js l) (other_items js) then Ok ms
                            else let? x := _create_joined_result js l VNone in Ok [x]) with
                     | Ok row => collides js l = false /\ 1 <= length row
                     | Err e => e = alias_used_error (right_alias js) /\ collides js l = true
                     end).
      { destruct (existsb (conditions js l) (other_items js)) eqn:Hex.
        - apply existsb_exists in Hex as (r & Hin & Hc).
          destruct (collides js l) eqn:Hcol.
          + exfalso. apply Hmn. split; [exact Hcol | eauto].
          + split; [reflexivity |]. rewrite Hml.
            assert (In r (List.filter (conditions js l) (other_items js)))
              by (apply filter_In; auto).
            destruct (List.filter (conditions js l) (other_items js)); [contradiction | simpl; lia].
        - pose proof (create_joined_cases l VNone) as Hc.
          destruct (_create_joined_result js l VNone); simpl; [split; [exact Hc | auto] | exact Hc]. }
      destruct (if existsb (conditions js l) (other_items js) then Ok ms
                else let? x := _create_joined_result js l VNone in Ok [x]) as [row | e]; simpl.
      * destruct (left_join_apply js ls) as [rest | e]; simpl.
        -- destruct Hrow as [Hc1 Hlen], IH as [IHc IHl]. split.
           ++ intros l' [<- | Hin]; auto.
           ++ rewrite length_app. lia.
        -- destruct IH as [-> (l' & Hin & Hcol)]. split; [reflexivity | eauto].
      * destruct Hrow as [-> Hcol]. split; [reflexivity | eauto].
    + destruct Hm as [-> [Hcol _]]. split; [reflexivity | eauto].
Qed.

Lemma matches_indexed_ok l rights :
  collides js l = false ->
  exists ms idxs, matches_indexed js l rights = Ok (ms, idxs) /\ length ms = length idxs.
Proof.
  intros Hcol. induction rights as [| [i r] rs IH]; simpl; [eauto |].
  destruct (conditions js l r); [| exact IH].
  pose proof (create_joined_cases l r) as Hc.
  destruct (_create_joined_result js l r) as [x | e]; simpl; [| destruct Hc; congruence].
  destruct IH as (ms & idxs & -> & Hlen). simpl. do 2 eexists. split; [reflexivity | simpl; lia].
Qed.

Lemma full_outer_left_ok items rights :
  (forall l, In l items -> collides js l = false) ->
  exists rows idxs, full_outer_left js items rights = Ok (rows, idxs) /\
    length items <= length rows /\ length idxs <= length rows.
Proof.
  intros Hcol. induction items as [| l ls IH]; simpl; [exists [], []; auto |].
  destruct (matches_indexed_ok l rights (Hcol l (or_introl eq_refl))) as (ms & idxs & -> & Hlen).
  simpl.
  assert (Hrow : exists row, match idxs with
                 | [] => let? x := _create_joined_result js l VNone in Ok [x]
                 | _ :: _ => Ok ms
                 end = Ok row /\ 1 <= length row /\ length idxs <= length row).
  { destruct idxs as [| i idxs].
    - pose proof (create_joined_cases l VNone) as Hc.
      destruct (_create_joined_result js l VNone) as [x | e]; simpl.
      + exists [x]. simpl. auto.
      + destruct Hc as [_ Hc]. rewrite (Hcol l (or_introl eq_refl)) in Hc. discriminate.
    - exists ms. simpl in *. split; [reflexivity | lia]. }
  destruct Hrow as (row & -> & H1 & H2). simpl.
  destruct IH as (rest & idxs' & -> & H3 & H4); [intros l' Hl'; apply Hcol; right; exact Hl' |].
  simpl. do 2 eexists. split; [reflexivity |]. rewrite !length_app. simpl. lia.
Qed.

Lemma unmatched_rights_ok rights matched :
  exists tail, unmatched_rights js rights matched = Ok tail /\
    length tail = length (List.filter (fun p => negb (existsb (Nat.eqb (fst p)) matched)) rights).
Proof.
  induction rights as [| [i r] rs IH]; simpl; [eauto |].
  destruct (existsb (Nat.eqb i) matched); simpl; [exact IH |].
  destruct (create_joined_none r) as [x ->]. simpl.
  destruct IH as (tail & -> & Hlen). simpl. eexists. split; [reflexivity | simpl; lia].
Qed.
End Joins.

Lemma length_filter_enumerate {A} (g : nat -> bool) (l : list A) k :
  length (List.filter (fun p => g (fst p)) (zip (seq k (length l)) l))
  = length (List.filter g (seq k (length l))).
Proof.
  revert k. induction l as [| x l IH]; intros k; [reflexivity |]. simpl.
  destruct (g k); simpl; rewrite IH; reflexivity.
Qed.

Lemma unmatched_count n (m : list nat) :
  n <= length m + length (List.filter (fun i => negb (existsb (Nat.eqb i) m)) (seq 0 n)).
Proof.
  pose proof (filter_length (fun i => existsb (Nat.eqb i) m) (seq 0 n)) as Hsplit.
  rewrite length_seq in Hsplit.
  assert (Hin : length (List.filter (fun i => existsb (Nat.eqb i) m) (seq 0 n)) <= length m).
  { apply NoDup_incl_length; [apply List.NoDup_filter, seq_NoDup |].
    intros i Hi. apply filter_In in Hi as [_ Hi].
    apply existsb_exists in Hi as (j & Hj & Hij). apply Nat.eqb_eq in Hij. subst. exact Hj. }
  lia.
Qed.

Lemma mk_join_step_ok other conds l r js :
  mk_join_step other conds l r = Ok js ->
  js = mkJoinStepRaw other conds l r /\ l <> r.
Proof.
  unfold mk_join_step. destruct (String.eqb_spec l r); [discriminate |].
  intros H. injection H as <-. auto.
Qed.

(** C6 (corrected).  [JoinStep] construction raises [QueryEngineError]
    exactly when the two aliases are equal.  A right alias already bound
    in the left rows is found only while the join is applied, and only
    when a joined row is built from such a row: the inner join raises
    the alias error exactly when some colliding left row has a matching
    right item, and the left join exactly when some left row collides
    (each left row builds at least one joined row); otherwise the
    application succeeds. *)
Theorem join_alias_checks :
  (forall other conds a,
     mk_join_step other conds a a = Err (QueryEngineError "Left and right aliases must be different.")) /\
  (forall other conds l r, l <> r -> exists js, mk_join_step other conds l r = Ok js) /\
  (forall other conds l r js items, mk_join_step other conds l r = Ok js ->
     match inner_join_apply js items with
     | Ok _ => ~ inner_collision js items
     | Err e => e = alias_used_error r /\ inner_collision js items
     end /\
     match left_join_apply js items with
     | Ok _ => forall li, In li items -> collides js li = false
     | Err e => e = alias_used_error r /\ exists li, In li items /\ collides js li = true
     end).
Proof.
  split; [| split].
  - intros other conds a. unfold mk_join_step. rewrite String.eqb_refl. reflexivity.
  - intros other conds l r Hne. unfold mk_join_step.
    destruct (String.eqb_spec l r); [contradiction | eauto].
  - intros other conds l r js items Hjs.
    destruct (mk_join_step_ok _ _ _ _ _ Hjs) as [-> Hne].
    pose proof (inner_join_cases (mkJoinStepRaw other conds l r) Hne items) as Hi.
    pose proof (left_join_cases (mkJoinStepRaw other conds l r) Hne items) as Hl.
    split.
    + destruct (inner_join_apply _ items); [exact (proj1 Hi) | exact Hi].
    + destruct (left_join_apply _ items); [exact (proj1 Hl) | exact Hl].
Qed.

Lemma join_alias_checks_witness :
  mk_join_step [VInt 1] (fun _ _ => true) "1" "0" = Ok (mkJoinStepRaw [VInt 1] (fun _ _ => true) "1" "0") /\
  inner_join_apply (mkJoinStepRaw [VInt 1] (fun _ _ => true) "1" "0")
    [VJoin [("0", VInt 5); ("1", VInt 6)]] = Err (alias_used_error "0").
Proof.
  assert (H : mk_join_step [VInt 1] (fun _ _ => true) "1" "0"
              = Ok (mkJoinStepRaw [VInt 1] (fun _ _ => true) "1" "0")) by reflexivity.
  split; [exact H |].
  pose proof (proj1 ((proj2 (proj2 join_alias_checks)) _ _ _ _ _
                       [VJoin [("0", VInt 5); ("1", VInt 6)]] H)) as Hi.
  vm_compute in Hi |- *. reflexivity.
Defined.

(** C6, at its own input: the right alias ["0"] is already bound in the
    left rows, yet the inner join with a predicate that never holds
    returns no rows and raises nothing. *)
Lemma join_alias_collision_undetected :
  mk_join_step [VInt 1] (fun _ _ => false) "1" "0"
    = Ok (mkJoinStepRaw [VInt 1] (fun _ _ => false) "1" "0") /\
  inner_join_apply (mkJoinStepRaw [VInt 1] (fun _ _ => false) "1" "0")
    [VJoin [("0", VInt 5); ("1", VInt 6)]] = Ok [].
Proof. split; reflexivity. Qed.

(** C8.  For a join step built from [other], [conds] and distinct
    aliases, and left rows none of which already binds the right alias:
    the inner join returns as many rows as there are pairs [(l, r)] of
    [items x other] with [conds l r]; the left join at least
    [len(items)] rows; the full outer join at least
    [max(len(items), len(other))] rows. *)
Theorem join_result_sizes other conds l r js items
  (Hjs : mk_join_step other conds l r = Ok js)
  (Hnc : forall li, In li items -> collides js li = false) :
  (exists rows, inner_join_apply js items = Ok rows /\
     length rows = length (List.filter (fun p => conds (fst p) (snd p)) (list_prod items other))) /\
  (exists rows, left_join_apply js items = Ok rows /\ length items <= length rows) /\
  (exists rows, full_outer_join_apply js items = Ok rows /\
     Nat.max (length items) (length other) <= length rows).
Proof.
  destruct (mk_join_step_ok _ _ _ _ _ Hjs) as [-> Hne].
  set (js := mkJoinStepRaw other conds l r) in *.
  split; [| split].
  - pose proof (inner_join_cases js Hne items) as Hi.
    destruct (inner_join_apply js items) as [rows | e].
    + exists rows. split; [reflexivity | exact (proj2 Hi)].
    + destruct Hi as [_ (li & Hin & Hcol & _)]. rewrite (Hnc li Hin) in Hcol. discriminate.
  - pose proof (left_join_cases js Hne items) as Hl.
    destruct (left_join_apply js items) as [rows | e].
    + exists rows. split; [reflexivity | exact (proj2 Hl)].
    + destruct Hl as [_ (li & Hin & Hcol)]. rewrite (Hnc li Hin) in Hcol. discriminate.
  - unfold full_outer_join_apply.
    destruct (full_outer_left_ok js Hne items (enumerate (other_items js)) Hnc)
      as (rows & m & -> & H1 & H2). cbn -[enumerate unmatched_rights].
    destruct (unmatched_rights_ok js Hne (enumerate other) m) as (tail & -> & Ht).
    cbn -[enumerate]. eexists. split; [reflexivity |].
    unfold enumerate in Ht. simpl in Ht.
    rewrite (length_filter_enumerate (fun i => negb (existsb (Nat.eqb i) m))) in Ht.
    pose proof (unmatched_count (length other) m). rewrite length_app. lia.
Qed.

Lemma join_result_sizes_witness :
  let js := mkJoinStepRaw [VInt 2; VInt 3] py_eq "a" "b" in
  mk_join_step [VInt 2; VInt 3] py_eq "a" "b" = Ok js /\
  (exists rows, full_outer_join_apply js [VInt 1; VInt 2] = Ok rows /\
     Nat.max 2 2 <= length rows).
Proof.
  intros js.
  assert (H1 : mk_join_step [VInt 2; VInt 3] py_eq "a" "b" = Ok js) by reflexivity.
  assert (H2 : forall li, In li [VInt 1; VInt 2] -> collides js li = false)
    by (intros li [<- | [<- | []]]; reflexivity).
  split; [exact H1 |].
  exact (proj2 (proj2 (join_result_sizes _ _ _ _ js [VInt 1; VInt 2] H1 H2))).
Defined.

(* ------------------------------------------------------------------ *)
(** ** Properties: Records once created: the fields the tracer never rewrites *)

Lemma heap_frozen_prefix_refl h : heap_frozen_prefix h h.
Proof. split; [lia | eauto]. Qed.

Lemma heap_frozen_prefix_trans h1 h2 h3 :
  heap_frozen_prefix h1 h2 -> heap_frozen_prefix h2 h3 -> heap_frozen_prefix h1 h3.
Proof.
  intros [L1 H1] [L2 H2]. split; [lia |]. intros i e He.
  destruct (H1 i e He) as (e2 & He2 & F2). destruct (H2 i e2 He2) as (e3 & He3 & F3).
  exists e3. split; [exact He3 | congruence].
Qed.

Lemma heap_frozen_prefix_app h l : heap_frozen_prefix h (h ++ l).
Proof.
  split; [rewrite length_app; lia |]. intros i e He. exists e.
  split; [apply lookup_app_l_Some; exact He | reflexivity].
Qed.

Lemma heap_frozen_prefix_insert h a e0 e' :
  h !! a = Some e0 -> frozen e' = frozen e0 -> heap_frozen_prefix h (<[a := e']> h).
Proof.
  intros Ha Hf. split; [rewrite length_insert; lia |]. intros i e He.
  destruct (decide (i = a)) as [-> | Hne].
  - rewrite Ha in He. injection He as <-. exists e'. split; [| exact Hf].
    apply list_lookup_insert_eq. apply lookup_lt_Some in Ha. exact Ha.
  - exists e. split; [rewrite list_lookup_insert_ne by congruence; exact He | reflexivity].
Qed.

Lemma step_frozen s c s' :
  ctx_step s c = Ok s' ->
  heap_frozen_prefix (heap s) (heap s') /\
  prefix (execution_trace s) (execution_trace s') /\
  prefix (variables s) (variables s').
Proof.
  intros H. destruct c as [line ty | | line fn full | line cs cr | n v p line | | a m args];
    simpl in H.
  - unfold record_loop_execution, generate_execution_id, current_scope, alloc, push_execution in H.
    simpl in H. destruct (scope_stack s); [discriminate |]. injection H as <-. simpl.
    split; [apply heap_frozen_prefix_app | split; [eexists; reflexivity | reflexivity]].
  - unfold record_loop_iteration, current_execution in H.
    destruct (execution_stack s) as [| a st]; [discriminate |]. simpl in H.
    destruct (heap s !! a) as [loop |] eqn:Ha; [| discriminate].
    destruct (is_loop_execution loop); [| discriminate].
    unfold generate_execution_id, current_scope in H. simpl in H.
    destruct (scope_stack s) as [| sc scs]; [discriminate |]. simpl in H.
    unfold start_iteration in H. destruct loop as [lid0 lsid lline [ty n | | |]]; try discriminate.
    injection H as <-. unfold heap_update, push_execution. simpl.
    split; [| split; [eexists; reflexivity | reflexivity]].
    eapply heap_frozen_prefix_trans; [| apply heap_frozen_prefix_app].
    eapply heap_frozen_prefix_insert; [exact Ha | reflexivity].
  - unfold record_function_call, generate_execution_id, generate_scope_id, push_scope,
      current_scope, alloc, push_execution in H.
    simpl in H. destruct (scope_stack s); [discriminate |]. simpl in H. injection H as <-. simpl.
    split; [apply heap_frozen_prefix_app | split; [eexists; reflexivity | reflexivity]].
  - unfold record_branch_execution, generate_execution_id, current_scope, alloc, push_execution in H.
    simpl in H. destruct (scope_stack s); [discriminate |]. injection H as <-. simpl.
    split; [apply heap_frozen_prefix_app | split; [eexists; reflexivity | reflexivity]].
  - unfold record_variable, current_scope in H.
    destruct (scope_stack s); [discriminate |]. injection H as <-. simpl.
    split; [apply heap_frozen_prefix_refl | split; [reflexivity | eexists; reflexivity]].
  - unfold pop_execution in H. destruct (execution_stack s) as [| a st]; [discriminate |].
    destruct (heap s !! a) as [[? ? ? [] ] |];
      try (injection H as <-; split; [apply heap_frozen_prefix_refl | split; reflexivity]).
    unfold pop_scope in H. simpl in H. destruct (scope_stack s); [discriminate |].
    injection H as <-. split; [apply heap_frozen_prefix_refl | split; reflexivity].
  - unfold exec_method in H.
    destruct (heap s !! a) as [[eid sid line k] |] eqn:Ha; [| discriminate].
    destruct k as [ty n | k lid | fn full defl arguments ret cid | cs cr]; try discriminate.
    destruct m as [| c0 m0]; [destruct args; discriminate |].
    repeat match type of H with
    | context [match ?x with _ => _ end] => destruct x; try discriminate
    end;
    injection H as <-; unfold heap_update; simpl;
    (split; [eapply heap_frozen_prefix_insert; [exact Ha | reflexivity] | split; reflexivity]).
Qed.

(** X1.  Running tracer calls from any context never removes or rewrites
    a record's id, scope, line or kind-specific identity fields (only a
    loop's [num_iterations] and a call's arguments, definition line and
    return value change later), and [execution_trace] and [variables]
    only grow at their end. *)
Theorem run_calls_frozen s cs s' :
  run_calls s cs = Ok s' ->
  heap_frozen_prefix (heap s) (heap s') /\
  prefix (execution_trace s) (execution_trace s') /\
  prefix (variables s) (variables s').
Proof.
  revert s. induction cs as [| c cs IH]; intros s H; simpl in H.
  - injection H as <-. split; [apply heap_frozen_prefix_refl | split; reflexivity].
  - destruct (ctx_step s c) as [s1 |] eqn:E; [| discriminate].
    destruct (step_frozen _ _ _ E) as (F1 & T1 & V1).
    destruct (IH s1 H) as (F2 & T2 & V2).
    split; [eapply heap_frozen_prefix_trans; eauto | split; etrans; eauto].
Qed.

(* ------------------------------------------------------------------ *)
(** ** Properties: Frames and scopes of the tracer *)

Lemma frozen_frame_is_call e e' : frozen e' = frozen e -> frame_is_call e' = frame_is_call e.
Proof.
  destruct e as [? ? ? []], e' as [? ? ? []]; unfold frozen; simpl;
    intros H; try reflexivity; discriminate H.
Qed.

Lemma filter_frames_stable h h' st :
  heap_frozen_prefix h h' -> Forall (fun a => a < length h) st ->
  List.filter (is_func_frame h') st = List.filter (is_func_frame h) st.
Proof.
  intros [_ Hp] Hst. apply filter_ext_in. intros a Ha.
  rewrite List.Forall_forall in Hst. specialize (Hst a Ha).
  destruct (lookup_lt_is_Some_2 h a Hst) as [e He].
  destruct (Hp a e He) as (e' & He' & Hf). unfold is_func_frame.
  rewrite He, He'. apply frozen_frame_is_call. exact Hf.
Qed.

Lemma is_func_frame_last h e : is_func_frame (h ++ [e]) (length h) = frame_is_call e.
Proof.
  unfold is_func_frame. rewrite lookup_app_r by lia. rewrite Nat.sub_diag. reflexivity.
Qed.

Lemma init_scope_inv : scope_inv init_ctx.
Proof.
  split; simpl; [reflexivity | reflexivity |].
  intros sc [<- | []]. simpl. lia.
Qed.

Lemma scope_step s c s' :
  trace_inv s -> scope_inv s -> ctx_step s c = Ok s' -> scope_inv s'.
Proof.
  intros Ht [Hch Hcnt Hctr] H.
  destruct (step_frozen _ _ _ H) as (Hfp & _ & _).
  pose proof (inv_stack _ Ht) as Hstk.
  destruct c as [line ty | | line fn full | line cs cr | n v p line | | a m args];
    simpl in H.
  - unfold record_loop_execution, generate_execution_id, current_scope, alloc, push_execution in H.
    simpl in H. destruct (scope_stack s) eqn:Hsc; [discriminate |]. injection H as <-.
    simpl in *. split; simpl; [exact Hch | | exact Hctr].
    rewrite is_func_frame_last. simpl.
    rewrite (filter_frames_stable _ _ _ Hfp Hstk). exact Hcnt.
  - unfold record_loop_iteration, current_execution in H.
    destruct (execution_stack s) as [| a st] eqn:Hes; [discriminate |]. simpl in H.
    destruct (heap s !! a) as [loop |] eqn:Ha; [| discriminate].
    destruct (is_loop_execution loop); [| discriminate].
    unfold generate_execution_id, current_scope in H. simpl in H.
    destruct (scope_stack s) as [| sc scs] eqn:Hsc; [discriminate |]. simpl in H.
    unfold start_iteration in H. destruct loop as [lid0 lsid lline [ty k | | |]]; try discriminate.
    injection H as <-. unfold heap_update, push_execution in *. simpl in *.
    split; simpl; [exact Hch | | exact Hctr].
    rewrite is_func_frame_last. simpl.
    rewrite Hes; rewrite (filter_frames_stable _ _ _ Hfp Hstk). exact Hcnt.
  - unfold record_function_call, generate_execution_id, generate_scope_id, push_scope,
      current_scope, alloc, push_execution in H.
    simpl in H. destruct (scope_stack s) as [| sc scs] eqn:Hsc; [discriminate |].
    simpl in H. injection H as <-. simpl in *.
    split; simpl.
    + split; [reflexivity | split; [reflexivity | split; [| exact Hch]]].
      specialize (Hctr sc (or_introl eq_refl)). lia.
    + rewrite is_func_frame_last. simpl.
      rewrite (filter_frames_stable _ _ _ Hfp Hstk). simpl. lia.
    + intros sc' [<- | Hin]; simpl; [lia |]. specialize (Hctr sc' Hin). lia.
  - unfold record_branch_execution, generate_execution_id, current_scope, alloc, push_execution in H.
    simpl in H. destruct (scope_stack s) eqn:Hsc; [discriminate |]. injection H as <-.
    simpl in *. split; simpl; [exact Hch | | exact Hctr].
    rewrite is_func_frame_last. simpl.
    rewrite (filter_frames_stable _ _ _ Hfp Hstk). exact Hcnt.
  - unfold record_variable, current_scope in H.
    destruct (scope_stack s) eqn:Hsc; [discriminate |]. injection H as <-.
    split; simpl; rewrite ?Hsc; assumption.
  - unfold pop_execution in H. destruct (execution_stack s) as [| a st] eqn:Hes; [discriminate |].
    simpl in Hcnt. unfold is_func_frame at 1 in Hcnt.
    destruct (heap s !! a) as [[eid sid line k] |] eqn:Ha.
    + destruct k as [ty k | k lid | fn full defl arguments ret cid | cs cr].
      1,2,4: injection H as <-; split; simpl; [exact Hch | exact Hcnt | exact Hctr].
      unfold pop_scope in H. simpl in H. destruct (scope_stack s) as [| sc scs] eqn:Hsc;
        [discriminate |]. injection H as <-. simpl in Hcnt. split; simpl.
      * destruct scs as [| sc' scs']; [simpl in Hcnt; lia |].
        simpl in Hch. destruct Hch as (_ & _ & _ & Hch). exact Hch.
      * lia.
      * intros sc' Hin. apply Hctr. right. exact Hin.
    + injection H as <-; split; simpl; [exact Hch | exact Hcnt | exact Hctr].
  - unfold exec_method in H.
    destruct (heap s !! a) as [[eid sid line k] |] eqn:Ha; [| discriminate].
    destruct k as [ty n | k lid | fn full defl arguments ret cid | cs cr]; try discriminate.
    destruct m as [| c0 m0]; [destruct args; discriminate |].
    repeat match type of H with
    | context [match ?x with _ => _ end] => destruct x; try discriminate
    end;
    injection H as <-; simpl in Hfp;
    (split; simpl; [exact Hch | rewrite (filter_frames_stable _ _ _ Hfp Hstk); exact Hcnt
                   | exact Hctr]).
Qed.

Lemma reachable_scope_inv s : reachable s -> scope_inv s.
Proof.
  induction 1 as [| s c s' Hr IH Hs].
  - exact init_scope_inv.
  - eapply scope_step; [apply reachable_inv; exact Hr | exact IH | exact Hs].
Qed.

Lemma scope_stack_nonempty s : reachable s -> exists sc scs, scope_stack s = sc :: scs.
Proof.
  intros Hs. destruct (reachable_scope_inv _ Hs) as [Hch _ _].
  destruct (scope_stack s) as [| sc scs]; [contradiction | eauto].
Qed.

(** X2.  In every reachable context, [record_variable],
    [record_loop_execution], [record_function_call] and
    [record_branch_execution] succeed: the scope stack is never empty. *)
Theorem record_calls_succeed s n v p line ty fn full cs cr :
  reachable s ->
  (exists s', record_variable s n v p line = Ok s') /\
  (exists s', record_loop_execution s line ty = Ok s') /\
  (exists s', record_function_call s line fn full = Ok s') /\
  (exists s', record_branch_execution s line cs cr = Ok s').
Proof.
  intros Hs. destruct (scope_stack_nonempty _ Hs) as (sc & scs & Hsc).
  unfold record_variable, record_loop_execution, record_function_call, record_branch_execution,
    generate_execution_id, generate_scope_id, current_scope, alloc, push_execution, push_scope.
  simpl. rewrite Hsc. simpl. repeat split; eexists; reflexivity.
Qed.

(** X3.  In every reachable context, [pop_execution] raises [IndexError]
    on an empty execution stack; otherwise it removes the top frame only,
    leaves the records, the trace and the variables as they are, and pops
    the scope stack exactly when that frame is a [FunctionCall]. *)
Theorem pop_execution_reachable s :
  reachable s ->
  (execution_stack s = [] -> pop_execution s = Err IndexError) /\
  forall a rest, execution_stack s = a :: rest ->
    exists s', pop_execution s = Ok s' /\ execution_stack s' = rest /\
      heap s' = heap s /\ execution_trace s' = execution_trace s /\ variables s' = variables s /\
      scope_stack s' = if is_func_frame (heap s) a then tail (scope_stack s) else scope_stack s.
Proof.
  intros Hs. split; [intros H; unfold pop_execution; rewrite H; reflexivity |].
  intros a rest Hst. destruct (reachable_scope_inv _ Hs) as [Hch Hcnt _].
  unfold pop_execution. rewrite Hst. rewrite Hst in Hcnt. simpl in Hcnt.
  unfold is_func_frame in *. destruct (heap s !! a) as [[eid sid line k] |] eqn:Ha.
  - destruct k as [ty n | k lid | fn full defl arguments ret cid | cs cr]; simpl in *;
      try (eexists; repeat split; reflexivity).
    unfold pop_scope. simpl. destruct (scope_stack s) as [| sc scs]; [discriminate |].
    eexists; repeat split; reflexivity.
  - eexists; repeat split; reflexivity.
Qed.

(** X4.  In every reachable context, [record_loop_iteration] succeeds
    exactly when the top frame is a [LoopExecution]; otherwise it raises
    the [RuntimeError] about no active loop. *)
Theorem record_loop_iteration_reachable s :
  reachable s ->
  (top_is_loop s = true -> exists s', record_loop_iteration s = Ok s') /\
  (top_is_loop s = false -> record_loop_iteration s = Err no_active_loop).
Proof.
  intros Hs. destruct (scope_stack_nonempty _ Hs) as (sc & scs & Hsc).
  unfold top_is_loop, record_loop_iteration, current_execution.
  destruct (execution_stack s) as [| a rest]; simpl; [split; [discriminate | reflexivity] |].
  destruct (heap s !! a) as [loop |]; [| split; [discriminate | reflexivity]].
  destruct loop as [eid sid line [ty n | k lid | fn full defl arguments ret cid | cs cr]];
    unfold is_loop_execution; simpl; split; try discriminate; try reflexivity.
  intros _. unfold current_scope. simpl. rewrite Hsc. simpl. eexists. reflexivity.
Qed.

Lemma frozen_is_loop e e' : frozen e' = frozen e -> is_loop_execution e' = is_loop_execution e.
Proof.
  destruct e as [? ? ? []], e' as [? ? ? []]; unfold frozen; simpl;
    intros H; try reflexivity; discriminate H.
Qed.

Lemma rec_refs_ok_frozen h h' i e e' :
  heap_frozen_prefix h h' -> frozen e' = frozen e -> rec_refs_ok h i e -> rec_refs_ok h' i e'.
Proof.
  intros [_ Hp] Hf. unfold rec_refs_ok.
  destruct e as [eid sid line k], e' as [eid' sid' line' k']. unfold frozen in Hf. simpl in *.
  injection Hf as -> -> -> Hf.
  destruct k as [ty n | k lid | fn full defl arguments ret cid | cs cr],
    k' as [ty' n' | k' lid' | fn' full' defl' arguments' ret' cid' | cs' cr']; simpl;
    intros Hk; try discriminate; try exact I.
  - injection Hf as -> ->. destruct Hk as (j & l & -> & Hj & Hl & Hloop).
    destruct (Hp j l Hl) as (l' & Hl' & Hfl). exists j, l'.
    repeat split; [assumption | assumption |]. rewrite (frozen_is_loop _ _ Hfl). exact Hloop.
  - injection Hf as -> -> ->. destruct Hk as [-> | (j & p & -> & Hj & Hpj)]; [left; reflexivity |].
    right. destruct (Hp j p Hpj) as (p' & Hp' & _). exists j, p'. auto.
Qed.

Lemma refs_ok_extend h h' :
  refs_ok h -> heap_frozen_prefix h h' ->
  (forall i e, h' !! i = Some e -> length h <= i -> rec_refs_ok h' i e) ->
  refs_ok h'.
Proof.
  intros Hr Hfp Hnew i e He. destruct (Nat.lt_ge_cases i (length h)) as [Hlt | Hge];
    [| apply Hnew; assumption].
  destruct (lookup_lt_is_Some_2 h i Hlt) as [e0 He0].
  destruct (proj2 Hfp i e0 He0) as (e1 & He1 & Hf). rewrite He in He1. injection He1 as <-.
  eapply rec_refs_ok_frozen; [exact Hfp | exact Hf | apply Hr; exact He0].
Qed.

Lemma lookup_snoc_ge {A} (h : list A) x i y :
  (h ++ [x]) !! i = Some y -> length h <= i -> i = length h /\ y = x.
Proof.
  intros H Hge. rewrite lookup_app_r in H by lia.
  destruct (i - length h) eqn:E; simpl in H; [| rewrite lookup_nil in H; discriminate].
  injection H as <-. split; [lia | reflexivity].
Qed.

Lemma refs_step s c s' : trace_inv s -> refs_ok (heap s) -> ctx_step s c = Ok s' -> refs_ok (heap s').
Proof.
  intros Ht Hr H. destruct (step_frozen _ _ _ H) as (Hfp & _ & _).
  apply (refs_ok_extend _ _ Hr Hfp). intros i e He Hge.
  pose proof (inv_stack _ Ht) as Hstk. pose proof (inv_ids _ Ht) as Hids.
  destruct c as [line ty | | line fn full | line cs cr | n v p line | | a m args];
    simpl in H.
  - unfold record_loop_execution, generate_execution_id, current_scope, alloc, push_execution in H.
    simpl in H. destruct (scope_stack s); [discriminate |]. injection H as <-. simpl in *.
    destruct (lookup_snoc_ge _ _ _ _ He Hge) as [-> ->]. exact I.
  - unfold record_loop_iteration, current_execution in H.
    destruct (execution_stack s) as [| a st] eqn:Hes; [discriminate |]. simpl in H.
    destruct (heap s !! a) as [loop |] eqn:Ha; [| discriminate].
    destruct (is_loop_execution loop); [| discriminate].
    unfold generate_execution_id, current_scope in H. simpl in H.
    destruct (scope_stack s) as [| sc scs]; [discriminate |]. simpl in H.
    unfold start_iteration in H. destruct loop as [lid0 lsid lline [ty k | | |]] eqn:Hloop;
      try discriminate.
    injection H as <-. unfold heap_update, push_execution in *. simpl in *.
    assert (Hge' : length (<[a:=mkExec lid0 lsid lline (LoopExecution ty (S k))]> (heap s)) <= i)
      by (rewrite length_insert; lia).
    destruct (lookup_snoc_ge _ _ _ _ He Hge') as [-> ->]. unfold rec_refs_ok. simpl.
    pose proof (Hids a _ Ha) as Hid. simpl in Hid. subst lid0.
    assert (Hlt : a < length (heap s)) by (apply lookup_lt_Some in Ha; exact Ha).
    exists a, (mkExec (S a) lsid lline (LoopExecution ty (S k))).
    split; [reflexivity |]. rewrite length_insert. split; [exact Hlt |].
    split; [| reflexivity]. rewrite lookup_app_l by (rewrite length_insert; exact Hlt).
    apply list_lookup_insert_eq. exact Hlt.
  - unfold record_function_call, generate_execution_id, generate_scope_id, push_scope,
      current_scope, alloc, push_execution in H.
    simpl in H. destruct (scope_stack s) as [| sc scs]; [discriminate |].
    simpl in H. injection H as <-. simpl in *.
    destruct (lookup_snoc_ge _ _ _ _ He Hge) as [-> ->]. unfold rec_refs_ok. simpl.
    unfold current_execution_id, current_execution. simpl.
    destruct (execution_stack s) as [| a st] eqn:Hes; [left; reflexivity |].
    inversion_clear Hstk as [| ? ? Ha _].
    destruct (lookup_lt_is_Some_2 _ _ Ha) as [p Hp]. simpl. rewrite Hp. right.
    exists a, p. rewrite (Hids a p Hp). split; [reflexivity |]. split; [exact Ha |].
    rewrite lookup_app_l by exact Ha. exact Hp.
  - unfold record_branch_execution, generate_execution_id, current_scope, alloc, push_execution in H.
    simpl in H. destruct (scope_stack s); [discriminate |]. injection H as <-. simpl in *.
    destruct (lookup_snoc_ge _ _ _ _ He Hge) as [-> ->]. exact I.
  - unfold record_variable, current_scope in H.
    destruct (scope_stack s); [discriminate |]. injection H as <-. simpl in He.
    apply lookup_lt_Some in He. lia.
  - unfold pop_execution in H. destruct (execution_stack s) as [| a st]; [discriminate |].
    assert (Hh : heap s' = heap s).
    { destruct (heap s !! a) as [[? ? ? [] ] |];
        try (injection H as <-; reflexivity).
      unfold pop_scope in H. simpl in H. destruct (scope_stack s); [discriminate |].
      injection H as <-. reflexivity. }
    rewrite Hh in He. apply lookup_lt_Some in He. lia.
  - unfold exec_method in H.
    destruct (heap s !! a) as [[eid sid line k] |] eqn:Ha; [| discriminate].
    destruct k as [ty n | k lid | fn full defl arguments ret cid | cs cr]; try discriminate.
    destruct m as [| c0 m0]; [destruct args; discriminate |].
    repeat match type of H with
    | context [match ?x with _ => _ end] => destruct x; try discriminate
    end;
    injection H as <-; unfold heap_update in He; simpl in He;
    apply lookup_lt_Some in He; rewrite length_insert in He; lia.
Qed.

Lemma reachable_refs s : reachable s -> refs_ok (heap s).
Proof.
  induction 1 as [| s c s' Hr IH Hs].
  - intros i e He. simpl in He. discriminate He.
  - eapply refs_step; [apply reachable_inv; exact Hr | exact IH | exact Hs].
Qed.

(** X5.  In every reachable context, a [LoopIteration] of the trace
    names, by [loop_execution_id], an earlier [LoopExecution] of the
    trace, and a [FunctionCall]'s [func_call_exec_ctx_id] is 0 or the id
    of an earlier record of the trace. *)
Theorem record_references s e :
  reachable s -> In e (trace_records s) ->
  (forall k lid, kind e = LoopIteration k lid ->
     exists L ty n, In L (trace_records s) /\ execution_id L = lid /\ lid < execution_id e /\
                    kind L = LoopExecution ty n) /\
  (forall fn full defl arguments ret cid,
     kind e = FunctionCall fn full defl arguments ret cid ->
     cid = 0 \/ exists P, In P (trace_records s) /\ execution_id P = cid /\ cid < execution_id e).
Proof.
  intros Hs He. pose proof (reachable_inv _ Hs) as Hi. pose proof (reachable_refs _ Hs) as Hr.
  rewrite (trace_records_heap _ Hi) in *.
  apply list_elem_of_In, list_elem_of_lookup in He as [i Hei].
  specialize (Hr i e Hei). unfold rec_refs_ok in Hr. rewrite (inv_ids _ Hi i e Hei). split.
  - intros k lid Hk. rewrite Hk in Hr. destruct Hr as (j & l & -> & Hj & Hl & Hloop).
    destruct l as [eid sid line [ty n | | |]] eqn:El; try discriminate Hloop.
    exists l, ty, n. subst l. split; [apply list_elem_of_In, list_elem_of_lookup; eauto |].
    rewrite (inv_ids _ Hi j _ Hl). split; [reflexivity | split; [lia | reflexivity]].
  - intros fn full defl arguments ret cid Hk. rewrite Hk in Hr.
    destruct Hr as [-> | (j & p & -> & Hj & Hp)]; [left; reflexivity |]. right.
    exists p. split; [apply list_elem_of_In, list_elem_of_lookup; eauto |].
    rewrite (inv_ids _ Hi j p Hp). split; [reflexivity | lia].
Qed.

Lemma scope_chain_spec l :
  scope_chain l ->
  (exists above, l = above ++ [global_scope]) /\
  forall i sc sc', l !! i = Some sc -> l !! S i = Some sc' ->
    scope_type sc = "function" /\ parent sc = Some (sc_scope_id sc') /\ sc_scope_id sc' < sc_scope_id sc.
Proof.
  induction l as [| sc l IH]; [intros [] |].
  destruct l as [| sc1 l]; simpl.
  - intros ->. split; [exists []; reflexivity |]. intros i x y _ Hy. rewrite lookup_nil in Hy. discriminate.
  - intros (Ht & Hp & Hlt & Hch). destruct (IH Hch) as [[above Ha] Hl]. split.
    + exists (sc :: above). rewrite Ha. reflexivity.
    + intros [| i] x y Hx Hy; simpl in Hx, Hy.
      * injection Hx as <-. injection Hy as <-. auto.
      * exact (Hl i x y Hx Hy).
Qed.

(** X6.  In every reachable context, the scope stack ends with the
    global scope, every other scope is a [function] scope whose parent is
    the scope below it and whose id is greater, and it has one scope more
    than there are [FunctionCall] frames on the execution stack. *)
Theorem scope_stack_shape s :
  reachable s ->
  (exists above, scope_stack s = above ++ [global_scope]) /\
  (forall i sc sc', scope_stack s !! i = Some sc -> scope_stack s !! S i = Some sc' ->
     scope_type sc = "function" /\ parent sc = Some (sc_scope_id sc') /\
     sc_scope_id sc' < sc_scope_id sc) /\
  length (scope_stack s) = S (length (List.filter (is_func_frame (heap s)) (execution_stack s))).
Proof.
  intros Hs. destruct (reachable_scope_inv _ Hs) as [Hch Hcnt _].
  destruct (scope_chain_spec _ Hch) as [Ha Hl]. auto.
Qed.

(* ------------------------------------------------------------------ *)
(** ** Properties: Further pipeline steps: select, offset, limit, join results *)

Lemma split_dot_no_dot s p : In p (split_dot s) -> ~ In "."%char (list_ascii_of_string p).
Proof.
  revert p. induction s as [| c rest IH]; intros p Hp; simpl in Hp.
  - destruct Hp as [<- | []]. simpl. tauto.
  - destruct (Ascii.eqb c ".") eqn:Ec.
    + destruct Hp as [<- | Hp]; [simpl; tauto | apply IH; exact Hp].
    + destruct (split_dot rest) as [| q qs] eqn:Hs.
      * destruct Hp as [<- | []]. simpl. intros [Hc | []].
        subst c. discriminate Ec.
      * destruct Hp as [<- | Hp].
        -- simpl. intros [Hc | Hin]; [subst c; discriminate Ec |].
           apply (IH q); [left; reflexivity | exact Hin].
        -- apply IH. right. exact Hp.
Qed.

Lemma split_dot_nonempty s : split_dot s <> [].
Proof.
  destruct s as [| c rest]; simpl; [discriminate |].
  destruct (Ascii.eqb c "."); [discriminate |]. destruct (split_dot rest); discriminate.
Qed.

Lemma split_dot_concat s : String.concat "." (split_dot s) = s.
Proof.
  induction s as [| c rest IH]; simpl; [reflexivity |].
  destruct (Ascii.eqb c ".") eqn:Ec.
  - apply Ascii.eqb_eq in Ec. subst c.
    pose proof (split_dot_nonempty rest) as Hne.
    destruct (split_dot rest) as [| q qs]; [congruence |]. simpl in *. rewrite IH.
    destruct qs; reflexivity.
  - pose proof (split_dot_nonempty rest) as Hne.
    destruct (split_dot rest) as [| q qs]; [congruence |].
    simpl in *. destruct qs as [| q' qs']; simpl in *; rewrite <- IH; reflexivity.
Qed.

Lemma split_dot_app_dot a r :
  ~ In "."%char (list_ascii_of_string a) ->
  split_dot (a ++ String "." r) = a :: split_dot r.
Proof.
  induction a as [| c a' IH]; intros Hno; simpl; [reflexivity |].
  simpl in Hno. rewrite IH by tauto.
  destruct (Ascii.eqb c ".") eqn:Ec; [| reflexivity].
  apply Ascii.eqb_eq in Ec. subst c. exfalso. apply Hno. left. reflexivity.
Qed.

Lemma split_dot_single a :
  ~ In "."%char (list_ascii_of_string a) -> split_dot a = [a].
Proof.
  induction a as [| c a' IH]; intros Hno; simpl; [reflexivity |].
  simpl in Hno. rewrite IH by tauto.
  destruct (Ascii.eqb c ".") eqn:Ec; [| reflexivity].
  apply Ascii.eqb_eq in Ec. subst c. exfalso. apply Hno. left. reflexivity.
Qed.

(** X7.  On a [JoinResult], [get_field_value] with an alias (a name
    without a dot) returns [JoinResult.get(alias)], and with a path
    [alias.rest] it resolves [rest] in that alias's row, giving [None]
    when the alias is missing or bound to [None]. *)
Theorem get_field_value_join_path m a r :
  ~ In "."%char (list_ascii_of_string a) ->
  get_field_value (VJoin m) a = Ok (join_get m a) /\
  get_field_value (VJoin m) (a ++ String "." r) =
    match dict_get a m with
    | None | Some VNone => Ok VNone
    | Some v => get_field_value v r
    end.
Proof.
  intros Hno. unfold get_field_value. rewrite split_dot_app_dot, split_dot_single by exact Hno.
  unfold join_get. simpl. split; destruct (dict_get a m) as [[] |]; reflexivity.
Qed.

Lemma dict_get_set_eq {A} k (v : A) d : dict_get k (dict_set k v d) = Some v.
Proof.
  induction d as [| [k' v'] d IH]; simpl.
  - rewrite String.eqb_refl. reflexivity.
  - destruct (String.eqb k k') eqn:E; simpl; rewrite ?String.eqb_refl, ?E; auto.
Qed.

Lemma dict_get_set_ne {A} k j (v : A) d : j <> k -> dict_get j (dict_set k v d) = dict_get j d.
Proof.
  intros Hne. induction d as [| [k' v'] d IH]; simpl.
  - destruct (String.eqb_spec j k); congruence.
  - destruct (String.eqb_spec k k') as [-> | Hk]; simpl.
    + destruct (String.eqb_spec j k'); congruence.
    + rewrite IH. reflexivity.
Qed.

Lemma dict_set_absent {A} k (v : A) d : dict_get k d = None -> dict_set k v d = d ++ [(k, v)].
Proof.
  induction d as [| [k' v'] d IH]; simpl; [reflexivity |].
  destruct (String.eqb k k'); [discriminate |]. intros H. rewrite IH by exact H. reflexivity.
Qed.

(** X9.  [JoinResult.add_alias] raises [QueryEngineError] when the alias is
    already bound and changes nothing; otherwise it appends the binding,
    after which [get] returns the new items for that alias and what it
    returned before for every other alias. *)
Theorem join_add_alias_spec m a v :
  (dict_has a m = true /\ join_add_alias m a v = Err (alias_used_error a)) \/
  (dict_has a m = false /\
   exists m', join_add_alias m a v = Ok m' /\ m' = m ++ [(a, v)] /\
     join_get m' a = v /\ forall b, b <> a -> join_get m' b = join_get m b).
Proof.
  unfold join_add_alias, dict_has. destruct (dict_get a m) eqn:Ha; [left; split; reflexivity |].
  right. split; [reflexivity |]. eexists. split; [reflexivity |].
  split; [apply dict_set_absent; exact Ha |].
  unfold join_get. rewrite dict_get_set_eq. split; [reflexivity |].
  intros b Hb. rewrite dict_get_set_ne by exact Hb. reflexivity.
Qed.

(** X10.  [LimitStep] and [OffsetStep] with the same bound split the
    items: the limited prefix followed by the offset suffix is the list
    again; a bound [n >= 0] takes or drops [n] items, a negative one
    counts [|n|] items from the end. *)
Theorem limit_offset_slices n items :
  limit_apply n items ++ offset_apply n items = items /\
  ((0 <= n)%Z -> limit_apply n items = take (Z.to_nat n) items /\
                 offset_apply n items = drop (Z.to_nat n) items) /\
  ((n < 0)%Z -> limit_apply n items = take (length items - Z.to_nat (- n)) items /\
                offset_apply n items = drop (length items - Z.to_nat (- n)) items).
Proof.
  unfold limit_apply, offset_apply. split; [apply take_drop |].
  unfold slice_index. split; intros Hn.
  - destruct (Z.ltb_spec n 0); [lia |].
    destruct (Nat.le_gt_cases (Z.to_nat n) (length items)) as [Hle | Hgt].
    + replace (Z.to_nat (Z.min n (Z.of_nat (length items)))) with (Z.to_nat n) by lia. auto.
    + replace (Z.to_nat (Z.min n (Z.of_nat (length items)))) with (length items) by lia.
      rewrite take_ge, drop_ge, take_ge, drop_ge by lia. auto.
  - destruct (Z.ltb_spec n 0); [| lia].
    replace (Z.to_nat (Z.max 0 (Z.of_nat (length items) + n)))
      with (length items - Z.to_nat (- n)) by lia. auto.
Qed.

Lemma res_map_ok {A B} (f : A -> res B) xs ys :
  res_map f xs = Ok ys -> Forall2 (fun x y => f x = Ok y) xs ys.
Proof.
  revert ys. induction xs as [| x xs IH]; intros ys H; simpl in H.
  - injection H as <-. constructor.
  - destruct (f x) as [y |] eqn:Ef; [| discriminate]. simpl in H.
    destruct (res_map f xs) as [ys' |]; [| discriminate]. injection H as <-.
    constructor; [exact Ef | apply IH; reflexivity].
Qed.

Lemma res_map_err {A B} (f : A -> res B) xs e :
  res_map f xs = Err e -> exists x, In x xs /\ f x = Err e.
Proof.
  induction xs as [| x xs IH]; intros H; simpl in H; [discriminate |].
  destruct (f x) as [y |] eqn:Ef; simpl in H.
  - destruct (res_map f xs) as [ys' |]; [discriminate |]. injection H as ->.
    destruct IH as (x' & Hin & Hx'); [reflexivity |]. exists x'. split; [right |]; assumption.
  - injection H as ->. exists x. split; [left; reflexivity | exact Ef].
Qed.

Lemma dict_set_keys {A} k (v : A) d f :
  In f (map fst (dict_set k v d)) <-> f = k \/ In f (map fst d).
Proof.
  induction d as [| [k' v'] d IH]; simpl; [intuition congruence |].
  destruct (String.eqb_spec k k') as [-> | Hk]; simpl; [intuition congruence |].
  rewrite IH. intuition congruence.
Qed.

Lemma dict_set_nodup {A} k (v : A) d : List.NoDup (map fst d) -> List.NoDup (map fst (dict_set k v d)).
Proof.
  induction d as [| [k' v'] d IH]; simpl; intros Hnd.
      - constructor; [intros [] | constructor].
  - inversion Hnd as [| ? ? Hnin Hnd']; subst.
    destruct (String.eqb_spec k k') as [-> | Hk]; simpl; [constructor; assumption |].
    constructor; [| apply IH; exact Hnd'].
    rewrite dict_set_keys. intros [-> | Hin]; [congruence | contradiction].
Qed.

Lemma select_row_go item fs acc row :
  (fix go (fs : list string) (acc : list (string * PyVal)) : res PyVal :=
     match fs with
     | [] => Ok (VDict acc)
     | field :: fs' => let? v := get_field_value item field in go fs' (dict_set field v acc)
     end) fs acc = Ok row ->
  List.NoDup (map fst acc) ->
  (forall f v, dict_get f acc = Some v -> get_field_value item f = Ok v) ->
  exists kvs, row = VDict kvs /\ List.NoDup (map fst kvs) /\
    (forall f, In f (map fst kvs) <-> In f (map fst acc) \/ In f fs) /\
    (forall f v, dict_get f kvs = Some v -> get_field_value item f = Ok v).
Proof.
  revert acc. induction fs as [| field fs IH]; intros acc H Hnd Hv; simpl in H.
  - injection H as <-. exists acc. split; [reflexivity |]. split; [exact Hnd |].
    split; [intros f; simpl; tauto | exact Hv].
  - destruct (get_field_value item field) as [v |] eqn:Eg; [| discriminate]. simpl in H.
    destruct (IH _ H) as (kvs & -> & Hnd' & Hk & Hv').
    + apply dict_set_nodup. exact Hnd.
    + intros f w Hf. destruct (String.eqb_spec f field) as [-> | Hne].
      * rewrite dict_get_set_eq in Hf. injection Hf as <-. exact Eg.
      * rewrite dict_get_set_ne in Hf by exact Hne. apply Hv. exact Hf.
    + exists kvs. split; [reflexivity |]. split; [exact Hnd' |]. split; [| exact Hv'].
      intros f. rewrite Hk, dict_set_keys. simpl. intuition congruence.
Qed.

Lemma select_row_go_err item fs acc e :
  (fix go (fs : list string) (acc : list (string * PyVal)) : res PyVal :=
     match fs with
     | [] => Ok (VDict acc)
     | field :: fs' => let? v := get_field_value item field in go fs' (dict_set field v acc)
     end) fs acc = Err e -> exists x, e = InvalidFieldError x.
Proof.
  revert acc. induction fs as [| field fs IH]; intros acc H; simpl in H; [discriminate |].
  destruct (get_field_value item field) as [v |] eqn:Eg; simpl in H.
  - exact (IH _ H).
  - injection H as ->. eapply resolve_fields_err. exact Eg.
Qed.

(** X11.  [SelectStep] keeps one row per item: with one field, the
    field's value; otherwise a dict whose keys are the distinct selected
    fields, each bound to the item's value; the only error it raises is
    [InvalidFieldError]. *)
Theorem select_apply_rows fields items :
  match select_apply fields items with
  | Ok out =>
      length out = length items /\
      (forall f, fields = [f] -> Forall2 (fun item v => get_field_value item f = Ok v) items out) /\
      (length fields <> 1 ->
       Forall2 (fun item row =>
                  exists kvs, row = VDict kvs /\ List.NoDup (map fst kvs) /\
                    (forall f, In f (map fst kvs) <-> In f fields) /\
                    (forall f v, dict_get f kvs = Some v -> get_field_value item f = Ok v))
               items out)
  | Err e => exists x, e = InvalidFieldError x
  end.
Proof.
  assert (Hrows : forall out, res_map (select_row fields) items = Ok out ->
    Forall2 (fun item row =>
               exists kvs, row = VDict kvs /\ List.NoDup (map fst kvs) /\
                 (forall f, In f (map fst kvs) <-> In f fields) /\
                 (forall f v, dict_get f kvs = Some v -> get_field_value item f = Ok v))
            items out).
  { intros out H. apply res_map_ok in H. eapply Forall2_impl; [exact H |].
    intros item row Hr. unfold select_row in Hr.
    destruct (select_row_go _ _ _ _ Hr) as (kvs & -> & Hnd & Hk & Hv);
      [constructor | intros f v Hf; discriminate Hf |].
    exists kvs. split; [reflexivity |]. split; [exact Hnd |]. split; [| exact Hv].
    intros f. rewrite Hk. simpl. tauto. }
  assert (Herr : forall e, res_map (select_row fields) items = Err e -> exists x, e = InvalidFieldError x).
  { intros e H. destruct (res_map_err _ _ _ H) as (item & _ & Hi).
    unfold select_row in Hi. eapply select_row_go_err. exact Hi. }
  unfold select_apply. destruct fields as [| f0 [| f1 fs]] eqn:Hf.
  - destruct (res_map (select_row []) items) as [out |] eqn:E; [| apply Herr; reflexivity].
    pose proof (Hrows out eq_refl) as H2. split; [symmetry; eapply Forall2_length; exact H2 |].
    split; [intros f Hff; discriminate Hff | intros _; exact H2].
  - destruct (res_map (fun item => get_field_value item f0) items) as [out |] eqn:E.
    + apply res_map_ok in E. split; [symmetry; eapply Forall2_length; exact E |].
      split; [intros f Hff; injection Hff as <-; exact E | simpl; lia].
    + destruct (res_map_err _ _ _ E) as (item & _ & Hi). eapply resolve_fields_err. exact Hi.
  - destruct (res_map (select_row (f0 :: f1 :: fs)) items) as [out |] eqn:E;
      [| apply Herr; reflexivity].
    pose proof (Hrows out eq_refl) as H2. split; [symmetry; eapply Forall2_length; exact H2 |].
    split; [intros f Hff; discriminate Hff | intros _; exact H2].
Qed.

(** X8.  Splitting a field path at dots gives a non-empty list of
    segments without dots that join back to the path; and splitting the
    dot-join of a non-empty list of dot-free segments gives them back. *)
Theorem split_dot_roundtrip s ps :
  (String.concat "." (split_dot s) = s /\ split_dot s <> [] /\
   List.Forall (fun p => ~ In "."%char (list_ascii_of_string p)) (split_dot s)) /\
  (ps <> [] -> List.Forall (fun p => ~ In "."%char (list_ascii_of_string p)) ps ->
   split_dot (String.concat "." ps) = ps).
Proof.
  split; [split; [apply split_dot_concat | split; [apply split_dot_nonempty |]] |].
  - apply List.Forall_forall. intros p Hp. exact (split_dot_no_dot s p Hp).
  - induction ps as [| p ps IH]; intros Hne Hall; [contradiction |].
    inversion_clear Hall as [| ? ? Hp Hps].
    destruct ps as [| p' ps'].
    + simpl. apply split_dot_single. exact Hp.
    + change (String.concat "." (p :: p' :: ps')) with (String.append p (String "." (String.concat "." (p' :: ps')))).
      rewrite split_dot_app_dot by exact Hp. f_equal. apply IH; [discriminate | exact Hps].
Qed.

(* ------------------------------------------------------------------ *)
(** ** Properties: [DistinctStep] *)





(* ------------------------------------------------------------------ *)
(** ** Properties: [GroupByStep] *)









(* ------------------------------------------------------------------ *)
(** ** Properties: [OrderByStep] *)

Lemma filter_above_nil zx l :
  List.Forall (fun a => (zx < zk a)%Z) l -> List.filter (fun a => Z.eqb (zk a) zx) l = [].
Proof.
  induction 1 as [| a l Ha _ IH]; simpl; [reflexivity |].
  destruct (Z.eqb_spec (zk a) zx); [lia | exact IH].
Qed.

Lemma forall_perm {A} (P : A -> Prop) l l' :
  Permutation l l' -> List.Forall P l' -> List.Forall P l.
Proof.
  intros Hp H. rewrite List.Forall_forall in *. intros x Hx. apply H.
  eapply Permutation_in; [exact Hp | exact Hx].
Qed.

Lemma sort_insert_int kx run :
  int_keyed kx -> List.Forall int_keyed run ->
  exists r, sort_insert kx run = Ok r /\ Permutation r (kx :: run) /\
    (StronglySorted (fun a b => (zk a <= zk b)%Z) run ->
     StronglySorted (fun a b => (zk a <= zk b)%Z) r /\
     forall z, List.filter (fun a => Z.eqb (zk a) z) r =
               List.filter (fun a => Z.eqb (zk a) z) run ++
               List.filter (fun a => Z.eqb (zk a) z) [kx]).
Proof.
  intros [zx Hx]. assert (Hzx : zk kx = zx) by (unfold zk; rewrite Hx; reflexivity).
  induction run as [| ky rest IH]; intros Hall; simpl.
  - eexists. split; [reflexivity |]. split; [reflexivity |]. intros _.
    split; [repeat constructor |]. intros z. reflexivity.
  - inversion_clear Hall as [| ? ? [zy Hy] Hrest].
    assert (Hzy : zk ky = zy) by (unfold zk; rewrite Hy; reflexivity).
    rewrite Hx, Hy. simpl.
    destruct (Z.ltb_spec zx zy) as [Hlt | Hge]; simpl.
    + eexists. split; [reflexivity |]. split; [reflexivity |]. intros Hs.
      inversion_clear Hs as [| ? ? Hs' Hfa].
      split.
      * constructor; [constructor; [exact Hs' | exact Hfa] |]. constructor; [lia |].
        eapply List.Forall_impl; [| exact Hfa]. intros a Ha. simpl in Ha. lia.
      * intros z. destruct (Z.eqb_spec zx z) as [<- | Hne].
        -- assert (Hnil : List.filter (fun a => Z.eqb (zk a) zx) (ky :: rest) = []).
           { apply filter_above_nil. constructor; [lia |].
             eapply List.Forall_impl; [| exact Hfa]. intros a Ha. simpl in Ha. lia. }
           simpl in Hnil |- *. rewrite Hzx, Z.eqb_refl, Hnil. reflexivity.
        -- simpl. rewrite Hzx. destruct (Z.eqb_spec zx z); [contradiction |].
           rewrite app_nil_r. reflexivity.
    + destruct (IH Hrest) as (r' & Hr' & Hp & Hs).
      rewrite Hr'. simpl. eexists. split; [reflexivity |]. split.
      * rewrite Hp. apply perm_swap.
      * intros Hss. inversion_clear Hss as [| ? ? Hs' Hfa].
        destruct (Hs Hs') as [Hs2 Hf2]. split.
        -- constructor; [exact Hs2 |]. eapply forall_perm; [exact Hp |].
           constructor; [simpl; lia | exact Hfa].
        -- intros z. simpl. rewrite Hf2. destruct (Z.eqb (zk ky) z); reflexivity.
Qed.

Lemma sort_go_int run kxs :
  List.Forall int_keyed run -> List.Forall int_keyed kxs ->
  StronglySorted (fun a b => (zk a <= zk b)%Z) run ->
  exists r, sort_go run kxs = Ok r /\ Permutation r (run ++ kxs) /\
    StronglySorted (fun a b => (zk a <= zk b)%Z) r /\
    forall z, List.filter (fun a => Z.eqb (zk a) z) r =
              List.filter (fun a => Z.eqb (zk a) z) run ++ List.filter (fun a => Z.eqb (zk a) z) kxs.
Proof.
  revert run. induction kxs as [| kx rest IH]; intros run Hrun Hk Hs; simpl.
  - eexists. split; [reflexivity |]. rewrite app_nil_r. split; [reflexivity |].
    split; [exact Hs |]. intros z. rewrite app_nil_r. reflexivity.
  - inversion_clear Hk as [| ? ? Hkx Hrest].
    destruct (sort_insert_int kx run Hkx Hrun) as (r1 & Hr1 & Hp1 & Hs1).
    destruct (Hs1 Hs) as [Hs1' Hf1].
    assert (Hr1k : List.Forall int_keyed r1).
    { eapply forall_perm; [exact Hp1 | constructor; assumption]. }
    destruct (IH r1 Hr1k Hrest Hs1') as (r & Hr & Hp & Hs2 & Hf2).
    rewrite Hr1. simpl. exists r. split; [exact Hr |]. split.
    + rewrite Hp, Hp1. simpl. apply Permutation_middle.
    + split; [exact Hs2 |]. intros z. rewrite Hf2, Hf1. simpl. rewrite <- app_assoc. destruct (Z.eqb (zk kx) z); reflexivity.
Qed.

Lemma strongly_sorted_snoc {A} (R : A -> A -> Prop) l a :
  StronglySorted R l -> List.Forall (fun x => R x a) l -> StronglySorted R (l ++ [a]).
Proof.
  induction 1 as [| x l Hs IH Hx]; intros Ha; simpl.
  - repeat constructor.
  - inversion_clear Ha as [| ? ? Hxa Hla]. constructor; [apply IH; exact Hla |].
    apply List.Forall_app. split; [exact Hx | constructor; [exact Hxa | constructor]].
Qed.

Lemma strongly_sorted_rev {A} (R : A -> A -> Prop) l :
  StronglySorted R l -> StronglySorted (fun a b => R b a) (rev l).
Proof.
  induction 1 as [| x l Hs IH Hx]; simpl; [constructor |].
  apply strongly_sorted_snoc; [exact IH |]. apply List.Forall_rev. exact Hx.
Qed.

Lemma filter_rev {A} (p : A -> bool) l : List.filter p (rev l) = rev (List.filter p l).
Proof.
  induction l as [| x l IH]; simpl; [reflexivity |].
  rewrite List.filter_app, IH. simpl. destruct (p x); simpl; [reflexivity | apply app_nil_r].
Qed.

Lemma py_sort_int kxs reverse :
  List.Forall int_keyed kxs ->
  exists r, py_sort kxs reverse = Ok r /\ Permutation r kxs /\
    StronglySorted (fun a b => if reverse then (zk b <= zk a)%Z else (zk a <= zk b)%Z) r /\
    forall z, List.filter (fun a => Z.eqb (zk a) z) r = List.filter (fun a => Z.eqb (zk a) z) kxs.
Proof.
  intros Hk. unfold py_sort. destruct reverse.
  - destruct (sort_go_int [] (rev kxs) (List.Forall_nil _) (List.Forall_rev Hk)
                (SSorted_nil _)) as (r & Hr & Hp & Hs & Hf).
    rewrite Hr. simpl. exists (rev r). split; [reflexivity |]. split.
    + rewrite <- Permutation_rev. rewrite Hp. simpl. symmetry. apply Permutation_rev.
    + split; [apply (strongly_sorted_rev _ _ Hs) |]. intros z.
      rewrite filter_rev, Hf. simpl. rewrite filter_rev, rev_involutive. reflexivity.
  - destruct (sort_go_int [] kxs (List.Forall_nil _) Hk (SSorted_nil _)) as (r & Hr & Hp & Hs & Hf).
    exists r. split; [exact Hr |]. split; [exact Hp |]. split; [exact Hs |].
    intros z. rewrite Hf. reflexivity.
Qed.

Lemma zip_keys_items field items keys :
  Forall2 (fun it k => get_field_value it field = Ok k) items keys ->
  List.Forall (fun kx => get_field_value (snd kx) field = Ok (fst kx)) (zip keys items) /\
  map snd (zip keys items) = items /\ map fst (zip keys items) = keys.
Proof.
  induction 1 as [| it k items keys Hk _ [IH1 [IH2 IH3]]]; simpl; [repeat constructor |].
  split; [constructor; [exact Hk | exact IH1] |]. rewrite IH2, IH3. split; reflexivity.
Qed.

Lemma map_snd_filter field z r :
  List.Forall (fun kx => zk kx = int_key field (snd kx)) r ->
  map snd (List.filter (fun a => Z.eqb (zk a) z) r) =
  List.filter (fun it => Z.eqb (int_key field it) z) (map snd r).
Proof.
  induction 1 as [| kx r Hkx _ IH]; simpl; [reflexivity |].
  rewrite Hkx. destruct (Z.eqb _ z); simpl; rewrite IH; reflexivity.
Qed.

Lemma strongly_sorted_map_snd (R : PyVal * PyVal -> PyVal * PyVal -> Prop) (R' : PyVal -> PyVal -> Prop) r :
  (forall a b, In a r -> In b r -> R a b -> R' (snd a) (snd b)) ->
  StronglySorted R r -> StronglySorted R' (map snd r).
Proof.
  intros HR Hs. induction Hs as [| a r Hs IH Ha]; simpl; constructor.
  - apply IH. intros x y Hx Hy. apply HR; right; assumption.
  - apply List.Forall_map. rewrite List.Forall_forall in *. intros b Hb.
    apply HR; [left; reflexivity | right; exact Hb | apply Ha; exact Hb].
Qed.

(** X15.  When every item's [field] is an integer, [OrderByStep]
    returns a permutation of the items sorted by that key (ascending or
    descending), and items with equal keys keep their input order. *)
Theorem order_by_apply_int_keys field is_ascending items zs :
  res_map (fun item => get_field_value item field) items = Ok (map VInt zs) ->
  exists out, order_by_apply field is_ascending items = Ok out /\
    Permutation out items /\
    StronglySorted (fun a b => if is_ascending then (int_key field a <= int_key field b)%Z
                               else (int_key field b <= int_key field a)%Z) out /\
    forall z, List.filter (fun it => Z.eqb (int_key field it) z) out =
              List.filter (fun it => Z.eqb (int_key field it) z) items.
Proof.
  intros H. unfold order_by_apply. rewrite H. simpl.
  destruct (zip_keys_items _ _ _ (res_map_ok _ _ _ H)) as (Hz & Hsnd & Hfst).
  set (kxs := zip (map VInt zs) items) in *.
  assert (Hinv : List.Forall (fun kx => int_keyed kx /\ zk kx = int_key field (snd kx)) kxs).
  { rewrite List.Forall_forall in *. intros kx Hin. specialize (Hz kx Hin).
    assert (Hf : In (fst kx) (map VInt zs)) by (rewrite <- Hfst; apply in_map; exact Hin).
    apply in_map_iff in Hf as (z & Hzk & _).
    unfold int_keyed, zk, int_key. rewrite Hz, <- Hzk. split; [exists z |]; reflexivity. }
  destruct (py_sort_int kxs (negb is_ascending)) as (r & Hr & Hp & Hs & Hf).
  { eapply List.Forall_impl; [| exact Hinv]. intros kx [Hk _]. exact Hk. }
  rewrite Hr. simpl.
  assert (Hinv_r : List.Forall (fun kx => int_keyed kx /\ zk kx = int_key field (snd kx)) r)
    by (eapply forall_perm; [exact Hp | exact Hinv]).
  assert (Hzr : List.Forall (fun kx => zk kx = int_key field (snd kx)) r)
    by (eapply List.Forall_impl; [| exact Hinv_r]; intros kx [_ E]; exact E).
  assert (Hzk : List.Forall (fun kx => zk kx = int_key field (snd kx)) kxs)
    by (eapply List.Forall_impl; [| exact Hinv]; intros kx [_ E]; exact E).
  exists (map snd r). split; [reflexivity |]. split.
  - rewrite <- Hsnd. apply Permutation_map. exact Hp.
  - split.
    + eapply strongly_sorted_map_snd; [| exact Hs]. intros a b Ha Hb Hab.
      rewrite List.Forall_forall in Hzr. rewrite <- (Hzr a Ha), <- (Hzr b Hb).
      destruct is_ascending; exact Hab.
    + intros z. rewrite <- (map_snd_filter _ _ _ Hzr), Hf, (map_snd_filter _ _ _ Hzk), Hsnd.
      reflexivity.
Qed.

Lemma sort_insert_err kx run e : sort_insert kx run = Err e -> e = TypeError.
Proof.
  induction run as [| ky rest IH]; simpl; [discriminate |].
  destruct (py_cmp true (fst kx) (fst ky)) as [b |] eqn:E; simpl.
  - destruct b; [discriminate |]. destruct (sort_insert kx rest); simpl; [discriminate | auto].
  - intros H. injection H as <-. exact (py_cmp_err _ _ _ _ E).
Qed.

Lemma sort_go_err run kxs e : sort_go run kxs = Err e -> e = TypeError.
Proof.
  revert run. induction kxs as [| kx rest IH]; intros run; simpl; [discriminate |].
  destruct (sort_insert kx run) as [r |] eqn:E; simpl; [apply IH |].
  intros H. injection H as <-. exact (sort_insert_err _ _ _ E).
Qed.

(** X16.  The only errors [OrderByStep] raises are [InvalidFieldError]
    (a missing field) and [TypeError] (keys that do not compare). *)
Theorem order_by_apply_err field is_ascending items e :
  order_by_apply field is_ascending items = Err e ->
  (exists f, e = InvalidFieldError f) \/ e = TypeError.
Proof.
  unfold order_by_apply.
  destruct (res_map _ items) as [keys |] eqn:Ek; simpl.
  - unfold py_sort. destruct (negb is_ascending).
    + destruct (sort_go [] (rev (zip keys items))) as [r |] eqn:Es; simpl; [discriminate |].
      intros H. injection H as <-. right. exact (sort_go_err _ _ _ Es).
    + destruct (sort_go [] (zip keys items)) as [r |] eqn:Es; simpl; [discriminate |].
      intros H. injection H as <-. right. exact (sort_go_err _ _ _ Es).
  - intros H. injection H as <-. left.
    destruct (res_map_err _ _ _ Ek) as (item & _ & Hi).
    exact (resolve_fields_err _ _ _ Hi).
Qed.

(* ------------------------------------------------------------------ *)
(** ** Properties: [WithinBlockStep], [SelectLoopIteration] and [LoopQuery.iterations] *)

Lemma exec_obj_attrs e :
  py_getattr_opt (exec_obj e) "scope_id" = Some (zn (scope_id e)) /\
  py_getattr_opt (exec_obj e) "execution_id" = Some (zn (execution_id e)) /\
  py_getattr_opt (exec_obj e) "end_execution_id" = None /\
  get_field_value (exec_obj e) "stmt_type" = Ok (VStr (stmt_type e)).
Proof.
  destruct e as [eid sid line [] ]; vm_compute; repeat split.
Qed.

Lemma in_range_zn a b c : in_range (zn a) (zn b) (zn c) = Ok (Nat.leb a b && Nat.leb b c).
Proof.
  unfold in_range, zn. simpl.
  destruct (Z.leb_spec (Z.of_nat a) (Z.of_nat b)), (Nat.leb_spec a b); try lia; simpl;
    [| reflexivity].
  destruct (Z.leb_spec (Z.of_nat b) (Z.of_nat c)), (Nat.leb_spec b c); try lia; reflexivity.
Qed.

Lemma py_eq_zn a b : py_eq (zn a) (zn b) = Nat.eqb a b.
Proof.
  unfold zn. simpl. destruct (Z.eqb_spec (Z.of_nat a) (Z.of_nat b)), (Nat.eqb_spec a b); lia.
Qed.

Lemma stmts_in_range_point a recs :
  stmts_in_range (zn a) (zn a) recs =
  Ok (map exec_obj (List.filter (fun x => Nat.eqb (execution_id x) a) recs)).
Proof.
  induction recs as [| x recs IH]; simpl; [reflexivity |].
  rewrite in_range_zn. simpl. rewrite IH. simpl.
  destruct (Nat.leb_spec a (execution_id x)), (Nat.leb_spec (execution_id x) a),
    (Nat.eqb_spec (execution_id x) a); try lia; reflexivity.
Qed.

Lemma vars_in_range_point sid a vs :
  vars_in_range (zn sid) (zn a) (zn a) vs =
  Ok (map snapshot_obj
        (List.filter (fun v => Nat.eqb (vs_scope_id v) sid && Nat.eqb (vs_execution_id v) a) vs)).
Proof.
  induction vs as [| v vs IH]; cbn [vars_in_range List.filter]; [reflexivity |].
  rewrite py_eq_zn. destruct (Nat.eqb (vs_scope_id v) sid); simpl; rewrite ?in_range_zn; simpl;
    rewrite IH; simpl; [| reflexivity].
  destruct (Nat.leb_spec a (vs_execution_id v)), (Nat.leb_spec (vs_execution_id v) a),
    (Nat.eqb_spec (vs_execution_id v) a); try lia; reflexivity.
Qed.

Lemma filter_id_absent (l : list StatementExecution) m :
  (forall y, In y l -> execution_id y <> m) ->
  List.filter (fun x => Nat.eqb (execution_id x) m) l = [].
Proof.
  induction l as [| y l IH]; intros H; simpl; [reflexivity |].
  destruct (Nat.eqb_spec (execution_id y) m); [exfalso; apply (H y); simpl; auto |].
  apply IH. intros z Hz. apply H. simpl. auto.
Qed.

Lemma filter_id_unique l k e :
  (forall i x, l !! i = Some x -> execution_id x = S (k + i)) -> In e l ->
  List.filter (fun x => Nat.eqb (execution_id x) (execution_id e)) l = [e].
Proof.
  revert k. induction l as [| x l IH]; intros k Hids Hin; [destruct Hin |].
  assert (Hx : execution_id x = S k) by (rewrite (Hids 0 x eq_refl); lia).
  assert (Htail : forall i y, l !! i = Some y -> execution_id y = S (S k + i)).
  { intros i y Hy. rewrite (Hids (S i) y Hy). lia. }
  simpl. destruct Hin as [<- | Hin].
  - rewrite Nat.eqb_refl. f_equal. rewrite Hx.
    apply filter_id_absent. intros y Hy.
    apply list_elem_of_In, list_elem_of_lookup in Hy as [i Hi]. rewrite (Htail i y Hi). lia.
  - apply list_elem_of_In, list_elem_of_lookup in Hin as [i Hi].
    assert (He : execution_id e = S (S k + i)) by exact (Htail i e Hi).
    rewrite Hx, He. destruct (Nat.eqb_spec (S k) (S (S k + i))); [lia |].
    rewrite <- He. apply (IH (S k) Htail). apply list_elem_of_In, list_elem_of_lookup. eauto.
Qed.

(** X17.  In every reachable context, [WithinBlockStep] applied to a trace
    record returns that record followed by the variable snapshots of its
    scope recorded under its execution id. *)
Theorem within_block_record s e :
  reachable s -> In e (trace_records s) ->
  within_block_apply s [exec_obj e] =
  Ok (exec_obj e ::
      map snapshot_obj
        (List.filter (fun v => Nat.eqb (vs_scope_id v) (scope_id e) &&
                               Nat.eqb (vs_execution_id v) (execution_id e)) (variables s))).
Proof.
  intros Hs Hin. pose proof (reachable_inv _ Hs) as Hi.
  destruct (exec_obj_attrs e) as (Hsc & Hid & Hend & _).
  unfold within_block_apply. cbn [within_block_go]. rewrite Hsc, Hid, Hend.
  rewrite stmts_in_range_point, vars_in_range_point. simpl.
  rewrite (filter_id_unique (trace_records s) 0 e); [simpl; rewrite app_nil_r; reflexivity | | exact Hin].
  rewrite (trace_records_heap _ Hi). intros i x Hx. exact (inv_ids _ Hi i x Hx).
Qed.

Lemma snapshot_stmt_type v : get_field_value (snapshot_obj v) "stmt_type" = Ok (VStr "variable").
Proof. destruct v; vm_compute. reflexivity. Qed.

Lemma py_eq_str a b : py_eq (VStr a) (VStr b) = String.eqb a b.
Proof. reflexivity. Qed.

Lemma loop_iteration_rows_eq s :
  loop_iteration_rows s = Ok (map exec_obj (List.filter is_loop_iteration_rec (trace_records s))).
Proof.
  unfold loop_iteration_rows, query_items.
  induction (trace_records s) as [| e l IH]; cbn [map app].
  - induction (variables s) as [| v vs IHv]; [reflexivity |].
    cbn [map where_apply any_condition]. unfold evaluate. cbn [qc_field qc_op qc_value].
    rewrite snapshot_stmt_type. simpl. rewrite IHv. reflexivity.
  - cbn [where_apply any_condition]. unfold evaluate. cbn [qc_field qc_op qc_value].
    destruct (exec_obj_attrs e) as (_ & _ & _ & Hst). rewrite Hst. simpl.
    rewrite IH. simpl. unfold is_loop_iteration_rec.
    destruct (String.eqb (stmt_type e) "loop_iteration"); reflexivity.
Qed.

Lemma exec_obj_loop_execution_id e k l :
  kind e = LoopIteration k l -> py_getattr_opt (exec_obj e) "loop_execution_id" = Some (zn l).
Proof. destruct e as [eid sid line kd]; simpl; intros ->; vm_compute; reflexivity. Qed.

Lemma iterations_of_rows lid recs :
  iterations_of (zn lid) (map exec_obj (List.filter is_loop_iteration_rec recs)) =
  Ok (map exec_obj (List.filter (is_iteration_of lid) recs)).
Proof.
  induction recs as [| e recs IH]; [reflexivity |].
  unfold is_loop_iteration_rec, is_iteration_of, stmt_type in *. simpl.
  destruct (kind e) as [ty n | k l | fn full defl args ret cid | cs cr] eqn:Hk; simpl;
    [exact IH | | exact IH | exact IH].
  rewrite (exec_obj_loop_execution_id e k l Hk), IH, py_eq_zn. simpl.
  destruct (Nat.eqb l lid); reflexivity.
Qed.

(** X18.  In every reachable context, for a [LoopExecution] of the
    trace, [Query(ctx).loops().iterations()]'s step returns the
    [LoopIteration] records of that loop, in trace order, and there are
    [num_iterations] of them. *)
Theorem loop_iterations_select s L ty n :
  reachable s -> In L (trace_records s) -> kind L = LoopExecution ty n ->
  exists rows,
    loop_iteration_rows s = Ok rows /\
    select_loop_iteration rows [exec_obj L] =
      Ok [VList (map exec_obj (List.filter (is_iteration_of (execution_id L)) (trace_records s)))] /\
    length (List.filter (is_iteration_of (execution_id L)) (trace_records s)) = n.
Proof.
  intros Hs HL Hk. pose proof (reachable_inv _ Hs) as Hi.
  eexists. split; [apply loop_iteration_rows_eq |]. split.
  - unfold select_loop_iteration. simpl.
    destruct L as [eid sid line kd]. simpl in Hk |- *. subst kd. simpl.
    rewrite (iterations_of_rows eid). reflexivity.
  - rewrite (trace_records_heap _ Hi) in *.
    apply list_elem_of_In, list_elem_of_lookup in HL as [j Hj].
    rewrite (inv_ids _ Hi j L Hj), length_filter_iterations, (inv_loop_iters _ Hi j L ty n Hj Hk).
    apply length_seq.
Qed.

(* ------------------------------------------------------------------ *)
(** ** Properties at the sample context *)

Lemma call_ctx_reachable : reachable call_ctx.
Proof.
  apply (run_calls_reachable init_ctx call_calls); [exact reach_init | vm_compute; reflexivity].
Qed.

Lemma run_calls_frozen_witness :
  run_calls call_ctx [TPopExecution; TRecordLoopIteration] =
    Ok (res_default init_ctx (run_calls call_ctx [TPopExecution; TRecordLoopIteration])) /\
  heap_frozen_prefix (heap call_ctx)
    (heap (res_default init_ctx (run_calls call_ctx [TPopExecution; TRecordLoopIteration]))).
Proof.
  assert (H : run_calls call_ctx [TPopExecution; TRecordLoopIteration] =
    Ok (res_default init_ctx (run_calls call_ctx [TPopExecution; TRecordLoopIteration])))
    by (vm_compute; reflexivity).
  split; [exact H | exact (proj1 (run_calls_frozen _ _ _ H))].
Defined.

Lemma record_calls_succeed_witness :
  reachable call_ctx /\
  (exists s', record_variable call_ctx "y" (VInt 2) "y" 3 = Ok s') /\
  (exists s', record_loop_execution call_ctx 3 "while" = Ok s') /\
  (exists s', record_function_call call_ctx 3 "g" "g" = Ok s') /\
  (exists s', record_branch_execution call_ctx 3 "x > 0" (VBool true) = Ok s').
Proof.
  split; [exact call_ctx_reachable |].
  exact (record_calls_succeed call_ctx "y" (VInt 2) "y" 3 "while" "g" "g" "x > 0" (VBool true)
           call_ctx_reachable).
Defined.

Lemma pop_execution_reachable_witness :
  reachable call_ctx /\ execution_stack call_ctx = [2; 1; 0] /\
  exists s', pop_execution call_ctx = Ok s' /\ execution_stack s' = [1; 0] /\
    heap s' = heap call_ctx /\ execution_trace s' = execution_trace call_ctx /\
    variables s' = variables call_ctx /\ scope_stack s' = scope_stack call_ctx.
Proof.
  assert (Hst : execution_stack call_ctx = [2; 1; 0]) by (vm_compute; reflexivity).
  split; [exact call_ctx_reachable | split; [exact Hst |]].
  destruct (proj2 (pop_execution_reachable call_ctx call_ctx_reachable) 2 [1; 0] Hst)
    as (s' & H1 & H2 & H3 & H4 & H5 & H6).
  exists s'. repeat split; assumption.
Defined.

Lemma record_loop_iteration_reachable_witness :
  reachable call_ctx /\ top_is_loop call_ctx = false /\
  record_loop_iteration call_ctx = Err no_active_loop.
Proof.
  assert (Ht : top_is_loop call_ctx = false) by (vm_compute; reflexivity).
  split; [exact call_ctx_reachable | split; [exact Ht |]].
  exact (proj2 (record_loop_iteration_reachable call_ctx call_ctx_reachable) Ht).
Defined.

Lemma record_references_witness :
  reachable call_ctx /\ In iter_rec (trace_records call_ctx) /\
  exists L ty n, In L (trace_records call_ctx) /\ execution_id L = 2 /\ 2 < 3 /\
                 kind L = LoopExecution ty n.
Proof.
  assert (Hin : In iter_rec (trace_records call_ctx)) by (vm_compute; right; right; left; reflexivity).
  split; [exact call_ctx_reachable | split; [exact Hin |]].
  exact (proj1 (record_references call_ctx iter_rec call_ctx_reachable Hin) 0 2 eq_refl).
Defined.

Lemma scope_stack_shape_witness :
  reachable call_ctx /\ (exists above, scope_stack call_ctx = above ++ [global_scope]) /\
  length (scope_stack call_ctx) = 2.
Proof.
  destruct (scope_stack_shape call_ctx call_ctx_reachable) as (Ha & _ & Hl).
  split; [exact call_ctx_reachable | split; [exact Ha |]].
  rewrite Hl. vm_compute. reflexivity.
Defined.

Lemma get_field_value_join_path_witness :
  ~ In "."%char (list_ascii_of_string "a") /\
  get_field_value (VJoin [("a", exec_obj iter_rec)]) "a.loop_execution_id" = Ok (VInt 2).
Proof.
  assert (Hno : ~ In "."%char (list_ascii_of_string "a")) by (simpl; intros [H | []]; discriminate H).
  split; [exact Hno |].
  etransitivity;
    [exact (proj2 (get_field_value_join_path [("a", exec_obj iter_rec)] "a" "loop_execution_id" Hno)) |].
  vm_compute. reflexivity.
Defined.


Lemma order_by_apply_int_keys_witness :
  res_map (fun item => get_field_value item "execution_id") (query_items call_ctx) =
    Ok (map VInt [1; 2; 3; 3]%Z) /\
  exists out, order_by_apply "execution_id" false (query_items call_ctx) = Ok out /\
    Permutation out (query_items call_ctx).
Proof.
  assert (H : res_map (fun item => get_field_value item "execution_id") (query_items call_ctx) =
                Ok (map VInt [1; 2; 3; 3]%Z)) by (vm_compute; reflexivity).
  split; [exact H |].
  destruct (order_by_apply_int_keys "execution_id" false _ _ H) as (out & H1 & H2 & _).
  exists out. split; assumption.
Defined.

Lemma order_by_apply_err_witness :
  order_by_apply "execution_id" true
    (query_items call_ctx ++ [VObj "VariableSnapshot" [("execution_id", VStr "a")]]) = Err TypeError /\
  ((exists f, TypeError = InvalidFieldError f) \/ TypeError = TypeError).
Proof.
  assert (H : order_by_apply "execution_id" true
    (query_items call_ctx ++ [VObj "VariableSnapshot" [("execution_id", VStr "a")]]) = Err TypeError)
    by (vm_compute; reflexivity).
  split; [exact H | exact (order_by_apply_err _ _ _ _ H)].
Defined.

Lemma within_block_record_witness :
  reachable call_ctx /\ In iter_rec (trace_records call_ctx) /\
  within_block_apply call_ctx [exec_obj iter_rec] =
    Ok (exec_obj iter_rec :: map snapshot_obj (variables call_ctx)).
Proof.
  assert (Hin : In iter_rec (trace_records call_ctx)) by (vm_compute; right; right; left; reflexivity).
  split; [exact call_ctx_reachable | split; [exact Hin |]].
  rewrite (within_block_record call_ctx iter_rec call_ctx_reachable Hin).
  vm_compute. reflexivity.
Defined.

Lemma loop_iterations_select_witness :
  reachable call_ctx /\ In loop_rec (trace_records call_ctx) /\
  exists rows, loop_iteration_rows call_ctx = Ok rows /\
    select_loop_iteration rows [exec_obj loop_rec] = Ok [VList [exec_obj iter_rec]].
Proof.
  assert (Hin : In loop_rec (trace_records call_ctx)) by (vm_compute; right; left; reflexivity).
  split; [exact call_ctx_reachable | split; [exact Hin |]].
  destruct (loop_iterations_select call_ctx loop_rec "for" 1 call_ctx_reachable Hin eq_refl)
    as (rows & H1 & H2 & _).
  exists rows. split; [exact H1 |]. rewrite H2. vm_compute. reflexivity.
Defined.
